(** * fix-delimited-file: column statistics, anchor columns and the line parser

  A shallow embedding of [src/file-metadata.ts] ([ColumnMetadata]),
  [src/anchor-column.ts] ([getAnchorColumns]) and [src/line-parser.ts]
  ([LineParser]), followed by the properties of the specification that
  concern them.

  Conventions of the embedding:
  - a JavaScript [string] is a [string]; one character stands for one
    UTF-16 code unit, so [String.length] is [.length];
  - a JavaScript [number] that the program uses as a count, a length or a
    ceiling is an integer: [Z] where the source accepts any number,
    [nat] for array indices and loop counters;
  - mutation of [this] is explicit state passing: a method returns the
    new value of the object;
  - [throw] is the [Throw] constructor of [Throws]. *)

From Stdlib Require Import String Ascii List ZArith Lia Bool Arith PeanoNat.
From Stdlib Require Import DecimalString.
Import ListNotations.

Local Open Scope list_scope.

(* ================================================================== *)
(** * Part I: definitions *)
(* ================================================================== *)

(** ** JavaScript values and built-ins the program relies on *)

Module Js.

(** The values that can appear in a parsed metadata cache. *)
#[local] Unset Elimination Schemes.
Inductive Value : Type :=
| Undefined
| Null
| Bool (b : bool)
| Number (n : Z)
| Str (s : string)
| Array (items : list Value)
| Object (fields : list (string * Value)).
#[local] Set Elimination Schemes.

(** [typeof v] *)
Definition typeof (v : Value) : string :=
  match v with
  | Undefined => "undefined"
  | Null => "object"
  | Bool _ => "boolean"
  | Number _ => "number"
  | Str _ => "string"
  | Array _ => "object"
  | Object _ => "object"
  end.

(** [Array.isArray(v)] *)
Definition isArray (v : Value) : bool :=
  match v with
  | Array _ => true
  | _ => false
  end.

(** A [Record<string, unknown>]: property list of a plain object. *)
Definition Record := list (string * Value).

(** [obj.key]: the value of an own property, [undefined] when absent. *)
Fixpoint get (obj : Record) (key : string) : Value :=
  match obj with
  | [] => Undefined
  | (k, v) :: rest => if String.eqb k key then v else get rest key
  end.

(** The outcome of a call that may [throw new Error(message)]. *)
Inductive Throws (A : Type) : Type :=
| Return (a : A)
| Throw (message : string).
Arguments Return {A} a.
Arguments Throw {A} message.

(** An array element, or the result of an indexed read: [None] is
    [undefined] (a hole of a sparse array reads as [undefined] too). *)
Definition Elem := option string.

(** String conversion applied by [+] to an operand. *)
Definition toStr (v : Elem) : string :=
  match v with
  | Some s => s
  | None => "undefined"
  end.

(** [cols[i]] on a dense array of strings. *)
Definition index (cols : list string) (i : nat) : Elem := nth_error cols i.

(** [a[i]] on an array that may have holes. *)
Definition at_ (a : list Elem) (i : nat) : Elem :=
  match nth_error a i with
  | Some v => v
  | None => None
  end.

(** [a[i] = v]: replaces the element when [i] is below the length,
    otherwise the array grows to length [i + 1] and the positions between
    the old length and [i] are holes. *)
Definition assign (a : list Elem) (i : nat) (v : Elem) : list Elem :=
  if i <? length a
  then firstn i a ++ v :: skipn (S i) a
  else a ++ repeat None (i - length a) ++ [v].

(** [a.push(v)] *)
Definition push (a : list Elem) (v : Elem) : list Elem := a ++ [v].

(** [a[a.length - 1] += s]. On an empty array the index is [-1]: the
    assignment creates the property ["-1"] of the array object, which is
    not an element (length and elements are unchanged). *)
Definition appendToLast (a : list Elem) (s : string) : list Elem :=
  match length a with
  | 0 => a
  | S last => assign a last (Some (toStr (at_ a last) ++ s)%string)
  end.

(** [s.split(sep)] for a non-empty separator: [skip] counts the
    characters of a separator occurrence still to be passed over, [cur]
    is the field read so far. *)
Fixpoint splitOn (sep : string) (s : string) (skip : nat) (cur : string)
  : list string :=
  match s with
  | EmptyString => [cur]
  | String c rest =>
      match skip with
      | S k => splitOn sep rest k cur
      | 0 =>
          if String.prefix sep s
          then cur :: splitOn sep rest (String.length sep - 1) EmptyString
          else splitOn sep rest 0 (cur ++ String c EmptyString)%string
      end
  end.

(** [s.split(sep)]; with the empty separator the string is cut into its
    code units (and the empty string gives the empty array). *)
Definition split (s sep : string) : list string :=
  match sep with
  | EmptyString => map (fun c => String c EmptyString) (list_ascii_of_string s)
  | _ => splitOn sep s 0 EmptyString
  end.

End Js.

(** ** [Set<string>]

  A JavaScript [Set] keeps its elements in insertion order, and
  [[...set]] lists them in that order: the set is the list of its
  elements, oldest first. *)

Module StringSet.

Definition t := list string.

Definition empty : t := [].

(** [set.has(v)] *)
Definition has (s : t) (v : string) : bool := existsb (String.eqb v) s.

(** [set.has(v)] for a value read from an array: [undefined] is a member
    of no set of strings. *)
Definition hasElem (s : t) (v : Js.Elem) : bool :=
  match v with
  | Some x => has s x
  | None => false
  end.

(** [set.add(v)] *)
Definition add (s : t) (v : string) : t :=
  if has s v then s else s ++ [v].

(** [set.size] *)
Definition size (s : t) : nat := length s.

(** [[...set]] *)
Definition elements (s : t) : list string := s.

(** [new Set(items)] *)
Definition ofList (items : list string) : t := fold_left add items empty.

End StringSet.

(** ** [ColumnMetadata] (file-metadata.ts) *)

Module ColumnMetadata.

Record t : Type := mk {
  maxLength : Z;
  name : string;
  unbounded : bool;
  uniqueValues : StringSet.t
}.

(** [new ColumnMetadata(name)] *)
Definition new (name : string) : t :=
  {| maxLength := 0; name := name; unbounded := false;
     uniqueValues := StringSet.empty |}.

(** [get cardinality()]: [None] is [null]. *)
Definition cardinality (c : t) : option nat :=
  if unbounded c then None else Some (StringSet.size (uniqueValues c)).

(** [missingOrInvalidField(field)] *)
Definition missingOrInvalidField {A : Type} (field : string) : Js.Throws A :=
  Js.Throw ("Missing or invalid type for field: " ++ field ++ ".")%string.

(** The value of a property once its [typeof] test has passed (the
    narrowing of TypeScript; the default is never used by [fromJson]). *)
Definition asNumber (v : Js.Value) : Z :=
  match v with Js.Number n => n | _ => 0%Z end.

Definition asString (v : Js.Value) : string :=
  match v with Js.Str s => s | _ => EmptyString end.

Definition asBoolean (v : Js.Value) : bool :=
  match v with Js.Bool b => b | _ => false end.

Definition asArray (v : Js.Value) : list Js.Value :=
  match v with Js.Array items => items | _ => [] end.

(** [ColumnMetadata.fromJson(obj)] *)
Definition fromJson (obj : Js.Record) : Js.Throws t :=
  if negb (String.eqb (Js.typeof (Js.get obj "maxLength")) "number")
  then missingOrInvalidField "maxLength"
  else if negb (String.eqb (Js.typeof (Js.get obj "name")) "string")
  then missingOrInvalidField "name"
  else if negb (String.eqb (Js.typeof (Js.get obj "unbounded")) "boolean")
  then missingOrInvalidField "unbounded"
  else if negb (Js.isArray (Js.get obj "uniqueValues"))
          || existsb (fun x => negb (String.eqb (Js.typeof x) "string"))
               (asArray (Js.get obj "uniqueValues"))
  then missingOrInvalidField "uniqueValues"
  else
    Js.Return
      {| maxLength := asNumber (Js.get obj "maxLength");
         name := asString (Js.get obj "name");
         unbounded := asBoolean (Js.get obj "unbounded");
         uniqueValues :=
           StringSet.ofList
             (map asString (asArray (Js.get obj "uniqueValues"))) |}.

(** [add(value, maxCardinality)]: the new value of [this]. *)
Definition add (c : t) (value : string) (maxCardinality : Z) : t :=
  let maxLength' :=
    if (maxLength c <? Z.of_nat (String.length value))%Z
    then Z.of_nat (String.length value)
    else maxLength c in
  if negb (unbounded c)
  then
    let uniqueValues' := StringSet.add (uniqueValues c) value in
    if (maxCardinality <? Z.of_nat (StringSet.size uniqueValues'))%Z
    then {| maxLength := maxLength'; name := name c;
            unbounded := true; uniqueValues := StringSet.empty |}
    else {| maxLength := maxLength'; name := name c;
            unbounded := unbounded c; uniqueValues := uniqueValues' |}
  else {| maxLength := maxLength'; name := name c;
          unbounded := unbounded c; uniqueValues := uniqueValues c |}.

(** [toJSON()] *)
Definition toJSON (c : t) : Js.Record :=
  [ ("cardinality"%string,
      match cardinality c with
      | None => Js.Null
      | Some n => Js.Number (Z.of_nat n)
      end);
    ("maxLength"%string, Js.Number (maxLength c));
    ("name"%string, Js.Str (name c));
    ("unbounded"%string, Js.Bool (unbounded c));
    ("uniqueValues"%string,
      Js.Array (map Js.Str (StringSet.elements (uniqueValues c)))) ].

(** A sequence of [add] calls, each with its value and ceiling. *)
Definition addAll (c : t) (calls : list (string * Z)) : t :=
  fold_left (fun acc call => add acc (fst call) (snd call)) calls c.

(** The values a program can build with the constructor and [add]. *)
Inductive Reachable : t -> Prop :=
| reach_new : forall name, Reachable (new name)
| reach_add : forall c value maxCardinality,
    Reachable c -> Reachable (add c value maxCardinality).

End ColumnMetadata.

(** ** [AnchorColumn] and [getAnchorColumns] (anchor-column.ts) *)

Module AnchorColumn.

Record t : Type := mk {
  previousColumns : nat;
  metadata : option ColumnMetadata.t   (* [None]: the property is omitted *)
}.

(** The [while (i < columns.length)] loop. [rest] is [columns[i..]], so
    the loop runs while [rest] is not empty, [columns[i++]] is its head
    and [i === columns.length] after the increment says its tail is
    empty. *)
Fixpoint loop (rest : list ColumnMetadata.t) (previousColumns : nat)
  (result : list t) : list t :=
  match rest with
  | [] => result
  | column :: rest' =>
      if negb (ColumnMetadata.unbounded column)
      then loop rest' 0
             (result ++ [ {| previousColumns := previousColumns;
                             metadata := Some column |} ])
      else
        let previousColumns' := S previousColumns in
        match rest' with
        | [] => loop rest' previousColumns'
                  (result ++ [ {| previousColumns := previousColumns';
                                  metadata := None |} ])
        | _ :: _ => loop rest' previousColumns' result
        end
  end.

Definition getAnchorColumns (columns : list ColumnMetadata.t) : list t :=
  loop columns 0 [].

(** Whether the anchor carries a column ([anchor.metadata] is truthy). *)
Definition hasMetadata (anchor : t) : bool :=
  match metadata anchor with
  | Some _ => true
  | None => false
  end.

(** The number of columns an anchor list accounts for: the free-text
    columns counted by [previousColumns] and one column per anchor that
    carries metadata. *)
Definition columnsCovered (anchors : list t) : nat :=
  list_sum (map previousColumns anchors)
  + length (filter hasMetadata anchors).

(** What the parser relies on in an anchor: a carried column is bounded,
    and an anchor without a column follows at least one free-text
    column. *)
Definition wellFormed (anchor : t) : Prop :=
  match metadata anchor with
  | Some md => ColumnMetadata.unbounded md = false
  | None => 1 <= previousColumns anchor
  end.

End AnchorColumn.

(** ** [FileMetadata] (file-metadata.ts) *)

Module FileMetadata.

Record t : Type := mk {
  columns : list ColumnMetadata.t
}.

(** Modelled from the spec: the [anchorColumns] getter that
    [LineParser] reads is not in the available revision of
    file-metadata.ts. The anchor list is "derived once from the Column
    Statistics Model" by [deriveAnchors], that is [getAnchorColumns]
    applied to the columns. *)
Definition anchorColumns (m : t) : list AnchorColumn.t :=
  AnchorColumn.getAnchorColumns (columns m).

End FileMetadata.

(** ** [LineParser] (line-parser.ts) *)

Module LineParser.

(** The [readonly] fields set by the constructor. *)
Record Config : Type := mkConfig {
  delimiter : string;
  metadata : FileMetadata.t;
  mergeSeparator : string
}.

(** [new LineParser(delimiter, metadata)]: the separator defaults to a
    space. *)
Definition defaultConfig (delimiter : string) (metadata : FileMetadata.t)
  : Config :=
  {| delimiter := delimiter; metadata := metadata; mergeSeparator := " " |}.

Record ParseOutput : Type := mkOutput {
  columns : option (list Js.Elem);       (* [None] is [null] *)
  unprocessedLines : list string
}.

(** The locals [result] and [colIndex] of [#tryParseColumns]. *)
Record Cursor : Type := mkCursor {
  result : list Js.Elem;
  colIndex : nat
}.

Section TryParseColumns.

Variable sep : string.          (* [this.#mergeSeparator] *)
Variable cols : list string.    (* the raw fields *)

(** [for (let i = 0; i < anchor.previousColumns; ++i)
      result.push(cols[colIndex++])], with [n] iterations to go. *)
Fixpoint pushPrevious (n : nat) (c : Cursor) : Cursor :=
  match n with
  | 0 => c
  | S n' =>
      pushPrevious n'
        {| result := Js.push (result c) (Js.index cols (colIndex c));
           colIndex := S (colIndex c) |}
  end.

(** The scan [while (!has(cols[colIndex + extraColIndex]))
      if (++extraColIndex + colIndex >= cols.length) return null] for a
    bounded anchor: [Some extraColIndex] when the loop is left at a
    match, [None] for [return null]. [fuel] bounds the iterations; it is
    not exhausted when it starts at [length cols]. *)
Fixpoint scan (uniqueValues : StringSet.t) (colIndex fuel extraColIndex : nat)
  : option nat :=
  if StringSet.hasElem uniqueValues (Js.index cols (colIndex + extraColIndex))
  then Some extraColIndex
  else if length cols <=? S extraColIndex + colIndex
  then None
  else
    match fuel with
    | 0 => None
    | S fuel' => scan uniqueValues colIndex fuel' (S extraColIndex)
    end.

(** [for (let i = 0; i < extraColIndex; ++i)
      result[result.length - 1] += sep + cols[colIndex + i]], with [n]
    iterations to go. *)
Fixpoint mergeExtra (colIndex n i : nat) (result : list Js.Elem)
  : list Js.Elem :=
  match n with
  | 0 => result
  | S n' =>
      mergeExtra colIndex n' (S i)
        (Js.appendToLast result
           (sep ++ Js.toStr (Js.index cols (colIndex + i)))%string)
  end.

(** [while (colIndex < cols.length)
      result[result.length - 1] += sep + cols[colIndex++]]: the loop runs
    [cols.length - colIndex] times, [n] iterations to go. *)
Fixpoint mergeRest (n : nat) (c : Cursor) : Cursor :=
  match n with
  | 0 => c
  | S n' =>
      mergeRest n'
        {| result :=
             Js.appendToLast (result c)
               (sep ++ Js.toStr (Js.index cols (colIndex c)))%string;
           colIndex := S (colIndex c) |}
  end.

(** The body of [for (const anchor of anchorColumns)]; [None] is
    [return null]. *)
Definition anchorStep (anchor : AnchorColumn.t) (c : Cursor) : option Cursor :=
  if length cols <? colIndex c + AnchorColumn.previousColumns anchor
  then None
  else
    let c1 := pushPrevious (AnchorColumn.previousColumns anchor) c in
    match AnchorColumn.metadata anchor with
    | Some md =>
        match
          (if ColumnMetadata.unbounded md
           then Some 0
           else scan (ColumnMetadata.uniqueValues md) (colIndex c1)
                  (length cols) 0)
        with
        | None => None
        | Some extraColIndex =>
            if (0 <? extraColIndex)
               && (AnchorColumn.previousColumns anchor =? 0)
            then None
            else
              let merged :=
                mergeExtra (colIndex c1) extraColIndex 0 (result c1) in
              Some
                {| result :=
                     Js.assign merged (colIndex c1)
                       (Js.index cols (colIndex c1 + extraColIndex));
                   colIndex := colIndex c1 + (extraColIndex + 1) |}
        end
    | None => Some (mergeRest (length cols - colIndex c1) c1)
    end.

(** [for (const anchor of anchorColumns) { ... }] *)
Fixpoint forEachAnchor (anchors : list AnchorColumn.t) (c : Cursor)
  : option Cursor :=
  match anchors with
  | [] => Some c
  | anchor :: rest =>
      match anchorStep anchor c with
      | None => None
      | Some c' => forEachAnchor rest c'
      end
  end.

(** [#tryParseColumns(cols)] *)
Definition tryParseColumns (metadata : FileMetadata.t)
  : option (list Js.Elem) :=
  if length cols <? length (FileMetadata.columns metadata)
  then None
  else
    match
      forEachAnchor (FileMetadata.anchorColumns metadata)
        {| result := []; colIndex := 0 |}
    with
    | None => None
    | Some c => if colIndex c <? length cols then None else Some (result c)
    end.

End TryParseColumns.

Section Parse.

Variable cfg : Config.

(** [this.#lines.slice(skipCount).flatMap(x => x.split(delimiter))] *)
Definition mergedCols (lines : list string) (skipCount : nat) : list string :=
  flat_map (fun x => Js.split x (delimiter cfg)) (skipn skipCount lines).

(** One merge attempt of the retry loop. *)
Definition attempt (lines : list string) (skipCount : nat)
  : option (list Js.Elem) :=
  tryParseColumns (mergeSeparator cfg) (mergedCols lines skipCount)
    (metadata cfg).

(** [for (let skipCount = 0; skipCount < this.#lines.length; ++skipCount)]
    from the current [skipCount] on, with [n] iterations to go; the
    loop falls through to the final [return] of [parse]. The result is the
    output and the new value of [this.#lines]. *)
Fixpoint retry (lines : list string) (n skipCount : nat)
  : ParseOutput * list string :=
  match n with
  | 0 => ({| columns := None; unprocessedLines := [] |}, lines)
  | S n' =>
      match attempt lines skipCount with
      | Some columns =>
          ({| columns := Some columns;
              unprocessedLines := firstn skipCount lines |}, [])
      | None => retry lines n' (S skipCount)
      end
  end.

(** [parse(line)] in the state [lines] (the value of [this.#lines]):
    the output and the new state. *)
Definition parse (lines : list string) (line : string)
  : ParseOutput * list string :=
  match
    tryParseColumns (mergeSeparator cfg) (Js.split line (delimiter cfg))
      (metadata cfg)
  with
  | Some columns =>
      ({| columns := Some columns; unprocessedLines := lines |}, [])
  | None =>
      let lines' := lines ++ [line] in
      if 1 <? length lines'
      then retry lines' (length lines') 0
      else ({| columns := None; unprocessedLines := [] |}, lines')
  end.

(** A run of [parse] over successive lines: the outputs in call order and
    the final state. *)
Fixpoint parseAll (lines : list string) (input : list string)
  : list ParseOutput * list string :=
  match input with
  | [] => ([], lines)
  | line :: rest =>
      let '(out, lines') := parse lines line in
      let '(outs, final) := parseAll lines' rest in
      (out :: outs, final)
  end.

End Parse.

End LineParser.

(** ** [#tryParseColumns] with its array accesses recorded

    The same function, line for line, returning next to its result the
    list of the indexed accesses it performs, in program order.
    [traced_tryParseColumns] below shows that the result is the one of
    [LineParser.tryParseColumns]. *)

Module Traced.

Import LineParser.

Inductive Event : Type :=
| ReadCols (i : nat)            (* [cols[i]] is read *)
| UpdateLast (len : nat)        (* [result[result.length - 1] += ...]
                                   on a [result] of length [len] *)
| Assign (i len : nat)          (* [result[i] = ...] on a [result] of
                                   length [len] *)
| AcceptUnscanned               (* the scan loop is not entered because
                                   [anchor.metadata.unbounded] is true *)
| FuelExhausted.                (* the fuel of [scan] ran out *)

(** Whether an access stays inside its array. An assignment at the
    length of [result] is the append that [push] performs and counts as
    in bounds; an assignment beyond it leaves holes. *)
Definition inBounds (cols : list string) (e : Event) : bool :=
  match e with
  | ReadCols i => i <? length cols
  | UpdateLast len => 0 <? len
  | Assign i len => i <=? len
  | AcceptUnscanned => true
  | FuelExhausted => true
  end.

(** What every access of an alignment against well-formed anchors
    satisfies: a read of [cols] is at an index not beyond the length (at
    the length itself the value read is [undefined]), the last element of
    [result] is updated only when [result] has one, no anchor is accepted
    unscanned and the fuel of the scan lasts. Nothing is said of the
    index of an assignment to [result]. *)
Definition tolerated (cols : list string) (e : Event) : Prop :=
  match e with
  | ReadCols i => i <= length cols
  | UpdateLast len => 0 < len
  | Assign _ _ => True
  | AcceptUnscanned => False
  | FuelExhausted => False
  end.

Section TryParseColumns.

Variable sep : string.
Variable cols : list string.

Fixpoint pushPrevious (n : nat) (c : Cursor) : Cursor * list Event :=
  match n with
  | 0 => (c, [])
  | S n' =>
      let '(c', log) :=
        pushPrevious n'
          {| result := Js.push (result c) (Js.index cols (colIndex c));
             colIndex := S (colIndex c) |} in
      (c', ReadCols (colIndex c) :: log)
  end.

Fixpoint scan (uniqueValues : StringSet.t) (colIndex fuel extraColIndex : nat)
  : option nat * list Event :=
  if StringSet.hasElem uniqueValues (Js.index cols (colIndex + extraColIndex))
  then (Some extraColIndex, [ReadCols (colIndex + extraColIndex)])
  else if length cols <=? S extraColIndex + colIndex
  then (None, [ReadCols (colIndex + extraColIndex)])
  else
    match fuel with
    | 0 => (None, [ReadCols (colIndex + extraColIndex); FuelExhausted])
    | S fuel' =>
        let '(r, log) := scan uniqueValues colIndex fuel' (S extraColIndex) in
        (r, ReadCols (colIndex + extraColIndex) :: log)
    end.

Fixpoint mergeExtra (colIndex n i : nat) (result : list Js.Elem)
  : list Js.Elem * list Event :=
  match n with
  | 0 => (result, [])
  | S n' =>
      let '(r, log) :=
        mergeExtra colIndex n' (S i)
          (Js.appendToLast result
             (sep ++ Js.toStr (Js.index cols (colIndex + i)))%string) in
      (r, UpdateLast (length result) :: ReadCols (colIndex + i) :: log)
  end.

Fixpoint mergeRest (n : nat) (c : Cursor) : Cursor * list Event :=
  match n with
  | 0 => (c, [])
  | S n' =>
      let '(c', log) :=
        mergeRest n'
          {| result :=
               Js.appendToLast (result c)
                 (sep ++ Js.toStr (Js.index cols (colIndex c)))%string;
             colIndex := S (colIndex c) |} in
      (c', UpdateLast (length (result c)) :: ReadCols (colIndex c) :: log)
  end.

Definition anchorStep (anchor : AnchorColumn.t) (c : Cursor)
  : option Cursor * list Event :=
  if length cols <? colIndex c + AnchorColumn.previousColumns anchor
  then (None, [])
  else
    let '(c1, log1) := pushPrevious (AnchorColumn.previousColumns anchor) c in
    match AnchorColumn.metadata anchor with
    | Some md =>
        let '(found, log2) :=
          if ColumnMetadata.unbounded md
          then (Some 0, [AcceptUnscanned])
          else scan (ColumnMetadata.uniqueValues md) (colIndex c1)
                 (length cols) 0 in
        match found with
        | None => (None, log1 ++ log2)
        | Some extraColIndex =>
            if (0 <? extraColIndex)
               && (AnchorColumn.previousColumns anchor =? 0)
            then (None, log1 ++ log2)
            else
              let '(merged, log3) :=
                mergeExtra (colIndex c1) extraColIndex 0 (result c1) in
              (Some
                 {| result :=
                      Js.assign merged (colIndex c1)
                        (Js.index cols (colIndex c1 + extraColIndex));
                    colIndex := colIndex c1 + (extraColIndex + 1) |},
               log1 ++ log2 ++ log3
                 ++ [ReadCols (colIndex c1 + extraColIndex);
                     Assign (colIndex c1) (length merged)])
        end
    | None =>
        let '(c2, log2) := mergeRest (length cols - colIndex c1) c1 in
        (Some c2, log1 ++ log2)
    end.

Fixpoint forEachAnchor (anchors : list AnchorColumn.t) (c : Cursor)
  : option Cursor * list Event :=
  match anchors with
  | [] => (Some c, [])
  | anchor :: rest =>
      let '(r, log) := anchorStep anchor c in
      match r with
      | None => (None, log)
      | Some c' =>
          let '(r', log') := forEachAnchor rest c' in
          (r', log ++ log')
      end
  end.

Definition tryParseColumns (metadata : FileMetadata.t)
  : option (list Js.Elem) * list Event :=
  if length cols <? length (FileMetadata.columns metadata)
  then (None, [])
  else
    let '(r, log) :=
      forEachAnchor (FileMetadata.anchorColumns metadata)
        {| result := []; colIndex := 0 |} in
    match r with
    | None => (None, log)
    | Some c =>
        (if colIndex c <? length cols then None else Some (result c), log)
    end.

End TryParseColumns.

End Traced.

(** ** The validation rule of the cache format, as the specification words it *)

Module CacheSpec.

(** The authoritative fields, in the order in which they are checked. *)
Definition authoritativeFields : list string :=
  ["maxLength"; "name"; "unbounded"; "uniqueValues"]%string.

(** A field value that is present and has the type the format gives it:
    [maxLength] a number, [name] a string, [unbounded] a boolean,
    [uniqueValues] an array of strings. *)
Definition wellTyped (field : string) (v : Js.Value) : bool :=
  if String.eqb field "maxLength" then
    match v with Js.Number _ => true | _ => false end
  else if String.eqb field "name" then
    match v with Js.Str _ => true | _ => false end
  else if String.eqb field "unbounded" then
    match v with Js.Bool _ => true | _ => false end
  else if String.eqb field "uniqueValues" then
    match v with
    | Js.Array items =>
        forallb (fun x => match x with Js.Str _ => true | _ => false end) items
    | _ => false
    end
  else true.

(** The first authoritative field of [obj] that is missing or ill-typed. *)
Definition firstOffending (obj : Js.Record) : option string :=
  find (fun field => negb (wellTyped field (Js.get obj field)))
    authoritativeFields.

End CacheSpec.

(** ** Sample data used by the examples *)

Module Sample.

Definition bounded (values : list string) : ColumnMetadata.t :=
  {| ColumnMetadata.maxLength := 0; ColumnMetadata.name := "";
     ColumnMetadata.unbounded := false;
     ColumnMetadata.uniqueValues := values |}.

Definition free : ColumnMetadata.t :=
  {| ColumnMetadata.maxLength := 0; ColumnMetadata.name := "";
     ColumnMetadata.unbounded := true;
     ColumnMetadata.uniqueValues := [] |}.

(** One free-text column followed by two bounded columns. *)
Definition freeThenTwoBounded : FileMetadata.t :=
  {| FileMetadata.columns :=
       [free; bounded ["a"%string]; bounded ["b"%string]] |}.

(** Two bounded columns followed by one free-text column. *)
Definition twoBoundedThenFree : FileMetadata.t :=
  {| FileMetadata.columns :=
       [bounded ["col-1-val-1"; "col-1-val-2"; "col-1-val-3"]%string;
        bounded ["col-2-val-1"; "col-2-val-2"; "col-2-val-3"]%string;
        free] |}.

(** Two free-text columns, one bounded column, two free-text columns. *)
Definition mixed : FileMetadata.t :=
  {| FileMetadata.columns :=
       [free; free;
        bounded ["col-3-val-1"; "col-3-val-2"; "col-3-val-3"]%string;
        free; free] |}.

End Sample.

(** ** [FileMetadata.toJSON] and [FileMetadata.#fromJson] (file-metadata.ts) *)

Module MetadataCache.

(** [items.map(f)] where [f] may throw: the first exception, in element
    order, leaves the call. *)
Fixpoint mapThrows {A B : Type} (f : A -> Js.Throws B) (items : list A)
  : Js.Throws (list B) :=
  match items with
  | [] => Js.Return []
  | x :: rest =>
      match f x with
      | Js.Throw message => Js.Throw message
      | Js.Return y =>
          match mapThrows f rest with
          | Js.Throw message => Js.Throw message
          | Js.Return ys => Js.Return (y :: ys)
          end
      end
  end.

(** [ColumnMetadata.fromJson(x)] for an element [x] of a parsed array,
    which need not be an object. Reading [x.maxLength] throws a
    [TypeError] when [x] is [null] or [undefined] (the message is the one
    of Node.js); a boolean, a number, a string or an array has none of
    the four properties, like the empty object. *)
Definition columnFromJson (x : Js.Value) : Js.Throws ColumnMetadata.t :=
  match x with
  | Js.Object fields => ColumnMetadata.fromJson fields
  | Js.Null =>
      Js.Throw "Cannot read properties of null (reading 'maxLength')"
  | Js.Undefined =>
      Js.Throw "Cannot read properties of undefined (reading 'maxLength')"
  | Js.Bool _ | Js.Number _ | Js.Str _ | Js.Array _ =>
      ColumnMetadata.fromJson []
  end.

(** [FileMetadata.prototype.toJSON()] *)
Definition toJSON (m : FileMetadata.t) : Js.Record :=
  [ ("columns"%string,
      Js.Array
        (map (fun x => Js.Object (ColumnMetadata.toJSON x))
           (FileMetadata.columns m))) ].

(** [FileMetadata.#fromJson(obj)] *)
Definition fromJson (obj : Js.Record) : Js.Throws FileMetadata.t :=
  if negb (Js.isArray (Js.get obj "columns"))
  then ColumnMetadata.missingOrInvalidField "columns"
  else
    match
      mapThrows columnFromJson (ColumnMetadata.asArray (Js.get obj "columns"))
    with
    | Js.Throw message => Js.Throw message
    | Js.Return columns => Js.Return {| FileMetadata.columns := columns |}
    end.

End MetadataCache.

(** ** The statistics pass of [FileMetadata.create] (file-metadata.ts)

    [create] awaits two things: the cache lookup and the lines that
    [getFileLines] yields. Both are arguments here: [cached] is the value
    of [cachedResult] ([None] when it is falsy) and [lines] the lines of
    the file in order. The write of the cache file is an effect outside
    the value computed. *)

Module Statistics.

(** [`col_${i}`] *)
Definition colName (i : nat) : string :=
  ("col_" ++ NilZero.string_of_uint (Nat.to_uint i))%string.

(** [if (numberOfColumns) { columns = []; for (let i = 1; i <=
    numberOfColumns; ++i) columns.push(new ColumnMetadata(`col_${i}`)) }]:
    [None] is [columns] left [undefined]; an omitted count and the count
    [0] are falsy. *)
Definition initialColumns (numberOfColumns : option Z)
  : option (list ColumnMetadata.t) :=
  match numberOfColumns with
  | None => None
  | Some n =>
      if (n =? 0)%Z then None
      else Some (map (fun i => ColumnMetadata.new (colName i))
                   (seq 1 (Z.to_nat n)))
  end.

(** [for (let i = 0; i < columns.length; ++i)
      columns[i].add(colData[i], maxCardinality)], run when the two
    arrays have the same length. *)
Definition addEach (maxCardinality : Z) (columns : list ColumnMetadata.t)
  (colData : list string) : list ColumnMetadata.t :=
  map (fun pair => ColumnMetadata.add (fst pair) (snd pair) maxCardinality)
    (combine columns colData).

(** The body of [for await (const line of getFileLines(...))]. *)
Definition processLine (delimiter : string) (maxCardinality : Z)
  (columns : option (list ColumnMetadata.t)) (line : string)
  : option (list ColumnMetadata.t) :=
  let colData := Js.split line delimiter in
  match columns with
  | None => Some (map ColumnMetadata.new colData)
  | Some columns =>
      if length colData =? length columns
      then Some (addEach maxCardinality columns colData)
      else Some columns
  end.

(** The loop over the lines, from the initial [columns]. *)
Definition processLines (delimiter : string) (maxCardinality : Z)
  (columns : option (list ColumnMetadata.t)) (lines : list string)
  : option (list ColumnMetadata.t) :=
  fold_left (processLine delimiter maxCardinality) lines columns.

(** The value [FileMetadata.create(input)] resolves to. *)
Definition create (cached : option FileMetadata.t) (delimiter : string)
  (maxCardinality : Z) (numberOfColumns : option Z) (lines : list string)
  : FileMetadata.t :=
  match cached with
  | Some cachedResult => cachedResult
  | None =>
      {| FileMetadata.columns :=
           match
             processLines delimiter maxCardinality
               (initialColumns numberOfColumns) lines
           with
           | Some columns => columns
           | None => []
           end |}
  end.

End Statistics.

(** ** Fields that agree with the statistics *)

Module Fields.

(** A field fits a column when the column is unbounded or the field is
    one of its values. *)
Definition fits (c : ColumnMetadata.t) (v : string) : Prop :=
  ColumnMetadata.unbounded c = false ->
  StringSet.has (ColumnMetadata.uniqueValues c) v = true.

End Fields.

(** ** Reads of the raw fields during an alignment *)

Module Reads.

Import LineParser.

(** An access that stays inside its array: a read of [cols] below the
    length, an update of the last element of a non-empty [result]. An
    anchor accepted unscanned and exhausted fuel do not qualify; the
    index of an assignment to [result] is left open. *)
Definition within (cols : list string) (e : Traced.Event) : Prop :=
  match e with
  | Traced.ReadCols i => i < length cols
  | Traced.UpdateLast len => 0 < len
  | Traced.Assign _ _ => True
  | Traced.AcceptUnscanned => False
  | Traced.FuelExhausted => False
  end.

(** The run over [anchors] from [start] that is stopped by the first
    probe of a scan at the end of the fields: the anchors [before] were
    processed, the free-text fields of the bounded [anchor] were pushed,
    which consumed the last field, every access so far was [within], and
    the scan of [anchor] read [cols[cols.length]] and returned [null];
    that read is the last entry of [log]. *)
Definition stoppedAtEnd (sep : string) (cols : list string)
  (anchors : list AnchorColumn.t) (start : Cursor)
  (log : list Traced.Event) : Prop :=
  exists before anchor after md reached logBefore pushed logPush,
    anchors = before ++ anchor :: after
    /\ AnchorColumn.metadata anchor = Some md
    /\ ColumnMetadata.unbounded md = false
    /\ Traced.forEachAnchor sep cols before start = (Some reached, logBefore)
    /\ Traced.pushPrevious cols (AnchorColumn.previousColumns anchor) reached
       = (pushed, logPush)
    /\ colIndex pushed = length cols
    /\ Traced.scan cols (ColumnMetadata.uniqueValues md) (colIndex pushed)
         (length cols) 0
       = (None, [Traced.ReadCols (length cols)])
    /\ Forall (within cols) (logBefore ++ logPush)
    /\ log = logBefore ++ logPush ++ [Traced.ReadCols (length cols)].

End Reads.

(* ================================================================== *)
(** * Part II: properties *)
(* ================================================================== *)

(** ** Insertion-ordered sets *)

Section StringSetFacts.

Lemma has_true_iff (s : StringSet.t) (v : string) :
  StringSet.has s v = true <-> In v s.
Proof.
  unfold StringSet.has. rewrite existsb_exists. split.
  - intros [x [Hin Heq]]. apply String.eqb_eq in Heq. now subst.
  - intros Hin. exists v. split; [assumption | apply String.eqb_refl].
Qed.

Lemma has_false_iff (s : StringSet.t) (v : string) :
  StringSet.has s v = false <-> ~ In v s.
Proof.
  rewrite <- has_true_iff. destruct (StringSet.has s v); split; congruence.
Qed.

Lemma add_NoDup (s : StringSet.t) (v : string) :
  NoDup s -> NoDup (StringSet.add s v).
Proof.
  intros Hs. unfold StringSet.add.
  destruct (StringSet.has s v) eqn:Hhas; [assumption |].
  apply has_false_iff in Hhas.
  induction Hs as [| x s Hx Hs IH]; simpl.
  - constructor; [intros [] | constructor].
  - constructor.
    + rewrite in_app_iff. simpl. intros [Hin | [Heq | []]].
      * contradiction.
      * subst. apply Hhas. now left.
    + apply IH. intros Hin. apply Hhas. now right.
Qed.

Lemma fold_add_NoDup (items : list string) :
  forall acc, NoDup (acc ++ items) ->
              fold_left StringSet.add items acc = acc ++ items.
Proof.
  induction items as [| x items IH]; intros acc Hnd; simpl.
  - now rewrite app_nil_r.
  - assert (Hx : StringSet.has acc x = false).
    { apply has_false_iff. intros Hin.
      apply NoDup_remove_2 in Hnd. apply Hnd. apply in_or_app. now left. }
    unfold StringSet.add at 2. rewrite Hx.
    rewrite IH; rewrite <- app_assoc; [reflexivity | exact Hnd].
Qed.

(** Rebuilding a set from the list of its elements gives the set back. *)
Lemma ofList_elements (s : StringSet.t) :
  NoDup s -> StringSet.ofList (StringSet.elements s) = s.
Proof.
  intros Hs. unfold StringSet.ofList, StringSet.elements, StringSet.empty.
  now rewrite fold_add_NoDup.
Qed.

End StringSetFacts.

(** ** Column statistics *)

Section ColumnMetadataFacts.

Import ColumnMetadata.

Lemma add_unique_NoDup (c : t) (value : string) (maxCardinality : Z) :
  NoDup (uniqueValues c) -> NoDup (uniqueValues (add c value maxCardinality)).
Proof.
  intros Hnd. unfold add.
  destruct (unbounded c); simpl; [assumption |].
  destruct (_ <? _)%Z; simpl; [constructor | now apply add_NoDup].
Qed.

Lemma Reachable_NoDup (c : t) : Reachable c -> NoDup (uniqueValues c).
Proof.
  induction 1 as [name | c value maxCardinality _ IH].
  - constructor.
  - now apply add_unique_NoDup.
Qed.

Lemma existsb_not_string_map_Str (items : list string) :
  existsb (fun x => negb (String.eqb (Js.typeof x) "string"))
    (map Js.Str items) = false.
Proof.
  induction items as [| x items IH]; simpl; [reflexivity | exact IH].
Qed.

Lemma map_asString_map_Str (items : list string) :
  map asString (map Js.Str items) = items.
Proof.
  rewrite map_map. simpl. apply map_id.
Qed.

(** A column whose set has no repeated element is read back unchanged. *)
Lemma toJSON_read_back (c : t) :
  NoDup (uniqueValues c) -> fromJson (toJSON c) = Js.Return c.
Proof.
  intros Hnd. unfold fromJson, toJSON. cbn [Js.get String.eqb Ascii.eqb Bool.eqb].
  cbn [Js.typeof Js.isArray negb orb asArray asNumber asString asBoolean].
  cbn [String.eqb Ascii.eqb Bool.eqb negb].
  rewrite existsb_not_string_map_Str, map_asString_map_Str.
  rewrite ofList_elements by assumption.
  now destruct c.
Qed.

End ColumnMetadataFacts.

Section Serialization.

Import ColumnMetadata.

(** C5: for every column built with the constructor and [add], reading
    back its serialization succeeds and gives a column with the same
    [maxLength], [name], [unbounded] flag and [uniqueValues], whose
    cardinality is [null] when unbounded and the size of [uniqueValues]
    otherwise. *)
Theorem fromJson_toJSON_roundtrip (x : t) :
  Reachable x ->
  exists y,
    fromJson (toJSON x) = Js.Return y
    /\ maxLength y = maxLength x
    /\ name y = name x
    /\ unbounded y = unbounded x
    /\ uniqueValues y = uniqueValues x
    /\ cardinality y =
         (if unbounded x then None
          else Some (StringSet.size (uniqueValues x))).
Proof.
  intros Hx. exists x.
  split; [apply toJSON_read_back; now apply Reachable_NoDup |].
  repeat split; reflexivity.
Qed.

Lemma fromJson_toJSON_roundtrip_witness :
  let x := add (add (add (new "col") "value1" 2) "value2" 2) "value2" 2 in
  Reachable x
  /\ exists y,
       fromJson (toJSON x) = Js.Return y
       /\ maxLength y = 6%Z
       /\ name y = "col"%string
       /\ unbounded y = false
       /\ uniqueValues y = ["value1"; "value2"]%string
       /\ cardinality y = Some 2.
Proof.
  split.
  - repeat constructor.
  - apply (fromJson_toJSON_roundtrip
             (add (add (add (new "col") "value1" 2) "value2" 2) "value2" 2)).
    repeat constructor.
Defined.

Lemma some_not_string (items : list Js.Value) :
  existsb (fun x => negb (String.eqb (Js.typeof x) "string")) items
  = negb (forallb (fun x => match x with Js.Str _ => true | _ => false end)
            items).
Proof.
  induction items as [| x items IH]; simpl; [reflexivity |].
  rewrite IH. now destruct x.
Qed.

(** C6: [fromJson] fails exactly when one of the four authoritative
    fields is missing or ill-typed, and then the error names the first
    such field in the order maxLength, name, unbounded, uniqueValues;
    otherwise it succeeds. The outcome depends on these four fields only,
    so a [cardinality] field, present or not, with any value, does not
    change it. *)
Theorem fromJson_first_offending (obj : Js.Record) :
  match CacheSpec.firstOffending obj with
  | Some field => fromJson obj = missingOrInvalidField field
  | None => exists c, fromJson obj = Js.Return c
  end
  /\ forall obj' : Js.Record,
       (forall field, In field CacheSpec.authoritativeFields ->
                      Js.get obj' field = Js.get obj field) ->
       fromJson obj' = fromJson obj.
Proof.
  split.
  - unfold CacheSpec.firstOffending, CacheSpec.authoritativeFields, fromJson.
    cbn [find CacheSpec.wellTyped String.eqb Ascii.eqb Bool.eqb].
    destruct (Js.get obj "maxLength"); try reflexivity.
    destruct (Js.get obj "name"); try reflexivity.
    destruct (Js.get obj "unbounded"); try reflexivity.
    destruct (Js.get obj "uniqueValues"); try reflexivity.
    cbn [Js.typeof Js.isArray asArray negb orb String.eqb Ascii.eqb Bool.eqb].
    rewrite some_not_string.
    destruct (forallb _ items); cbn [negb]; [eexists |]; reflexivity.
  - intros obj' Hsame. unfold fromJson.
    rewrite !Hsame; [reflexivity | | | |]; simpl; tauto.
Qed.

Lemma fromJson_first_offending_witness :
  let valid : Js.Record :=
    [("maxLength", Js.Number 6); ("name", Js.Str "col");
     ("unbounded", Js.Bool false);
     ("uniqueValues", Js.Array [Js.Str "value1"; Js.Str "value2"])]%string in
  fromJson (("cardinality"%string, Js.Str "many") :: valid) = fromJson valid.
Proof.
  intros valid.
  apply (proj2 (fromJson_first_offending valid)).
  intros field Hin. simpl in Hin.
  destruct Hin as [<- | [<- | [<- | [<- | []]]]]; reflexivity.
Defined.

End Serialization.

Section Latch.

Import ColumnMetadata.

Lemma add_maxLength (c : t) (value : string) (maxCardinality : Z) :
  maxLength (add c value maxCardinality)
  = Z.max (maxLength c) (Z.of_nat (String.length value)).
Proof.
  unfold add.
  destruct (maxLength c <? Z.of_nat (String.length value))%Z eqn:Hlt;
    [apply Z.ltb_lt in Hlt | apply Z.ltb_ge in Hlt];
    destruct (unbounded c); simpl; try destruct (_ <? _)%Z; simpl; lia.
Qed.

Lemma add_unbounded_stays (c : t) (value : string) (maxCardinality : Z) :
  unbounded c = true ->
  unbounded (add c value maxCardinality) = true
  /\ uniqueValues (add c value maxCardinality) = uniqueValues c.
Proof.
  intros Hu. unfold add. rewrite Hu. simpl. now split.
Qed.

Lemma addAll_unbounded_stays (calls : list (string * Z)) :
  forall c, unbounded c = true ->
            unbounded (addAll c calls) = true
            /\ uniqueValues (addAll c calls) = uniqueValues c.
Proof.
  induction calls as [| [value maxCardinality] calls IH]; intros c Hu.
  - now split.
  - change (addAll c ((value, maxCardinality) :: calls))
      with (addAll (add c value maxCardinality) calls).
    destruct (add_unbounded_stays c value maxCardinality Hu) as [Hu' Hv'].
    destruct (IH _ Hu') as [Hu'' Hv'']. split; congruence.
Qed.

Lemma addAll_maxLength (calls : list (string * Z)) :
  forall c,
    maxLength (addAll c calls)
    = fold_left Z.max
        (map (fun call => Z.of_nat (String.length (fst call))) calls)
        (maxLength c).
Proof.
  induction calls as [| [value maxCardinality] calls IH]; intros c; simpl.
  - reflexivity.
  - change (addAll c ((value, maxCardinality) :: calls))
      with (addAll (add c value maxCardinality) calls).
    now rewrite IH, add_maxLength.
Qed.

(** C7: over any sequence of [add] calls, (1) once a column is unbounded
    every later state is unbounded with the same [uniqueValues], so the
    change bounded-to-unbounded happens at most once; (2) a bounded
    column becomes unbounded at a call exactly when the number of
    distinct values, this value included, exceeds the ceiling of the
    call, and [uniqueValues] is then empty, while otherwise the value
    joins the set; (3) [maxLength] ends as the largest of its initial
    value and the lengths of all the values seen, bounded or not. *)
Theorem add_is_one_way_latch (c : t) (calls later : list (string * Z)) :
  (unbounded (addAll c calls) = true ->
   unbounded (addAll c (calls ++ later)) = true
   /\ uniqueValues (addAll c (calls ++ later))
      = uniqueValues (addAll c calls))
  /\ (forall value maxCardinality,
        unbounded c = false ->
        let distinct := StringSet.add (uniqueValues c) value in
        let c' := add c value maxCardinality in
        (unbounded c' = true
         <-> (maxCardinality < Z.of_nat (StringSet.size distinct))%Z)
        /\ (unbounded c' = true -> uniqueValues c' = StringSet.empty)
        /\ (unbounded c' = false -> uniqueValues c' = distinct))
  /\ maxLength (addAll c calls)
     = fold_left Z.max
         (map (fun call => Z.of_nat (String.length (fst call))) calls)
         (maxLength c).
Proof.
  split; [| split].
  - intros Hu. unfold addAll. rewrite fold_left_app.
    now apply addAll_unbounded_stays.
  - intros value maxCardinality Hb distinct c'. subst distinct c'.
    unfold add. rewrite Hb. cbn [negb].
    destruct (_ <? _)%Z eqn:Hlt; cbn [unbounded uniqueValues].
    + apply Z.ltb_lt in Hlt. repeat split; auto; discriminate.
    + apply Z.ltb_ge in Hlt. repeat split; auto; try congruence.
      lia.
  - apply addAll_maxLength.
Qed.

Lemma add_is_one_way_latch_witness :
  let c := new "col" in
  let calls := [("1", 3%Z); ("2", 3%Z); ("3", 3%Z); ("4", 3%Z)]%string in
  let later := [("5", 3%Z); ("a longer value", 9%Z)]%string in
  unbounded (addAll c calls) = true
  /\ unbounded (addAll c (calls ++ later)) = true
  /\ uniqueValues (addAll c (calls ++ later)) = []
  /\ unbounded (add c "1" 0) = true
  /\ uniqueValues (add c "1" 1) = ["1"%string]
  /\ maxLength (addAll c (calls ++ later)) = 14%Z.
Proof.
  intros c calls later.
  pose proof (add_is_one_way_latch c calls later) as [Hlatch [Hstep _]].
  pose proof (add_is_one_way_latch c (calls ++ later) []) as [_ [_ Hmax]].
  destruct (Hlatch eq_refl) as [Hu Hv].
  destruct (Hstep "1"%string 0%Z eq_refl) as [Hiff0 _].
  destruct (Hstep "1"%string 1%Z eq_refl) as [_ [_ Hkeep]].
  split; [reflexivity |].
  split; [exact Hu |].
  split; [exact Hv |].
  split; [apply Hiff0; reflexivity |].
  split; [apply Hkeep; reflexivity |].
  exact Hmax.
Defined.

End Latch.

(** ** Anchor derivation *)

Section AnchorFacts.

Import AnchorColumn.

Lemma loop_app (rest : list ColumnMetadata.t) :
  forall previous result,
    loop rest previous result = result ++ loop rest previous [].
Proof.
  induction rest as [| column rest IH]; intros previous result; simpl.
  - now rewrite app_nil_r.
  - destruct (ColumnMetadata.unbounded column); simpl.
    + destruct rest as [| next rest'].
      * reflexivity.
      * apply IH.
    + rewrite IH. rewrite (IH 0 [_]). now rewrite app_assoc.
Qed.

Lemma loop_bounded (column : ColumnMetadata.t) (rest : list ColumnMetadata.t)
  (previous : nat) :
  ColumnMetadata.unbounded column = false ->
  loop (column :: rest) previous []
  = {| previousColumns := previous; metadata := Some column |}
      :: loop rest 0 [].
Proof.
  intros Hb. simpl. rewrite Hb. simpl. now rewrite loop_app.
Qed.

Lemma loop_unbounded_last (column : ColumnMetadata.t) (previous : nat) :
  ColumnMetadata.unbounded column = true ->
  loop [column] previous []
  = [{| previousColumns := S previous; metadata := None |}].
Proof.
  intros Hu. simpl. now rewrite Hu.
Qed.

Lemma loop_unbounded_more (column next : ColumnMetadata.t)
  (rest : list ColumnMetadata.t) (previous : nat) :
  ColumnMetadata.unbounded column = true ->
  loop (column :: next :: rest) previous []
  = loop (next :: rest) (S previous) [].
Proof.
  intros Hu. cbn [loop]. now rewrite Hu.
Qed.

(** An induction principle that follows the three cases of the loop. *)
Lemma loop_ind_cases
  (P : list ColumnMetadata.t -> nat -> list t -> Prop) :
  (forall previous, P [] previous []) ->
  (forall column rest previous,
      ColumnMetadata.unbounded column = false ->
      P rest 0 (loop rest 0 []) ->
      P (column :: rest) previous
        ({| previousColumns := previous; metadata := Some column |}
           :: loop rest 0 [])) ->
  (forall column previous,
      ColumnMetadata.unbounded column = true ->
      P [column] previous
        [{| previousColumns := S previous; metadata := None |}]) ->
  (forall column next rest previous,
      ColumnMetadata.unbounded column = true ->
      P (next :: rest) (S previous) (loop (next :: rest) (S previous) []) ->
      P (column :: next :: rest) previous
        (loop (next :: rest) (S previous) [])) ->
  forall rest previous, P rest previous (loop rest previous []).
Proof.
  intros Hnil Hbounded Hlast Hmore.
  induction rest as [| column rest IH]; intros previous.
  - apply Hnil.
  - destruct (ColumnMetadata.unbounded column) eqn:Hu.
    + destruct rest as [| next rest'].
      * rewrite loop_unbounded_last by assumption. now apply Hlast.
      * rewrite loop_unbounded_more by assumption. apply Hmore; auto.
    + rewrite loop_bounded by assumption. apply Hbounded; auto.
Qed.

Lemma loop_all_unbounded (rest : list ColumnMetadata.t) :
  forall previous,
    rest <> [] ->
    Forall (fun c => ColumnMetadata.unbounded c = true) rest ->
    loop rest previous []
    = [{| previousColumns := previous + length rest; metadata := None |}].
Proof.
  induction rest as [| column rest IH]; intros previous Hne Hall.
  - contradiction.
  - inversion Hall as [| ? ? Hu Hrest]; subst.
    destruct rest as [| next rest'].
    + rewrite loop_unbounded_last by assumption. simpl.
      now rewrite Nat.add_1_r.
    + rewrite loop_unbounded_more by assumption.
      rewrite IH; [| discriminate | assumption].
      simpl. do 2 f_equal. lia.
Qed.

Lemma loop_all_bounded (rest : list ColumnMetadata.t) :
  Forall (fun c => ColumnMetadata.unbounded c = false) rest ->
  loop rest 0 []
  = map (fun c => {| previousColumns := 0; metadata := Some c |}) rest.
Proof.
  induction 1 as [| column rest Hb _ IH]; [reflexivity |].
  rewrite loop_bounded by assumption. simpl. now rewrite IH.
Qed.

(** C8: an all-unbounded, non-empty column list gives the single anchor
    [{previousColumns: N}] without metadata, [N] the number of columns; an
    all-bounded list gives one anchor per column, in order, carrying the
    column with [previousColumns = 0]; the empty list gives no anchor. *)
Theorem getAnchorColumns_endpoints (columns : list ColumnMetadata.t) :
  (columns <> [] ->
   Forall (fun c => ColumnMetadata.unbounded c = true) columns ->
   getAnchorColumns columns
   = [{| previousColumns := length columns; metadata := None |}])
  /\ (Forall (fun c => ColumnMetadata.unbounded c = false) columns ->
      getAnchorColumns columns
      = map (fun c => {| previousColumns := 0; metadata := Some c |})
          columns)
  /\ getAnchorColumns [] = [].
Proof.
  unfold getAnchorColumns. split; [| split].
  - intros Hne Hall. now rewrite loop_all_unbounded.
  - apply loop_all_bounded.
  - reflexivity.
Qed.

Lemma getAnchorColumns_endpoints_witness :
  getAnchorColumns [Sample.free; Sample.free; Sample.free]
  = [{| previousColumns := 3; metadata := None |}]
  /\ getAnchorColumns [Sample.bounded ["a"%string]; Sample.bounded ["b"%string]]
     = [{| previousColumns := 0;
           metadata := Some (Sample.bounded ["a"%string]) |};
        {| previousColumns := 0;
           metadata := Some (Sample.bounded ["b"%string]) |}].
Proof.
  split.
  - apply (proj1 (getAnchorColumns_endpoints
                    [Sample.free; Sample.free; Sample.free])).
    + discriminate.
    + repeat constructor.
  - apply (proj1 (proj2 (getAnchorColumns_endpoints
                           [Sample.bounded ["a"%string];
                            Sample.bounded ["b"%string]]))).
    repeat constructor.
Defined.

(** Every anchor of a derived list is well formed. *)
Lemma loop_wellFormed (rest : list ColumnMetadata.t) (previous : nat) :
  Forall wellFormed (loop rest previous []).
Proof.
  apply (loop_ind_cases (fun _ _ anchors => Forall wellFormed anchors)).
  - constructor.
  - intros column rest' p Hb IH. constructor; [exact Hb | exact IH].
  - intros column p Hu.
    constructor; [unfold wellFormed; simpl; lia | constructor].
  - intros column next rest' p Hu IH. exact IH.
Qed.

Lemma getAnchorColumns_wellFormed (columns : list ColumnMetadata.t) :
  Forall wellFormed (getAnchorColumns columns).
Proof.
  apply loop_wellFormed.
Qed.

(** All anchors but the last carry metadata. *)
Lemma loop_removelast_metadata (rest : list ColumnMetadata.t) (previous : nat) :
  Forall (fun a => hasMetadata a = true) (removelast (loop rest previous [])).
Proof.
  apply (loop_ind_cases
           (fun _ _ anchors =>
              Forall (fun a => hasMetadata a = true) (removelast anchors))).
  - constructor.
  - intros column rest' p Hb IH.
    destruct (loop rest' 0 []) as [| a anchors] eqn:Hloop.
    + constructor.
    + cbn [removelast]. constructor; [reflexivity | exact IH].
  - intros column p Hu. constructor.
  - intros column next rest' p Hu IH. exact IH.
Qed.

Lemma loop_columnsCovered (rest : list ColumnMetadata.t) (previous : nat) :
  columnsCovered (loop rest previous [])
  = match rest with
    | [] => 0
    | _ :: _ => previous + length rest
    end.
Proof.
  apply (loop_ind_cases
           (fun rest previous anchors =>
              columnsCovered anchors
              = match rest with
                | [] => 0
                | _ :: _ => previous + length rest
                end)).
  - reflexivity.
  - intros column rest' p Hb IH. unfold columnsCovered in *.
    cbn [map list_sum filter hasMetadata metadata previousColumns length].
    destruct rest'; simpl in *; lia.
  - intros column p Hu. unfold columnsCovered. simpl. lia.
  - intros column next rest' p Hu IH. rewrite IH. simpl. lia.
Qed.

End AnchorFacts.

(** ** JavaScript arrays *)

Section ArrayFacts.

Lemma assign_length (a : list Js.Elem) (i : nat) (v : Js.Elem) :
  length (Js.assign a i v) = Nat.max (length a) (S i).
Proof.
  unfold Js.assign. destruct (i <? length a) eqn:Hlt.
  - apply Nat.ltb_lt in Hlt.
    rewrite length_app, length_firstn. cbn [length]. rewrite length_skipn. lia.
  - apply Nat.ltb_ge in Hlt.
    rewrite !length_app, repeat_length. simpl. lia.
Qed.

Lemma appendToLast_length (a : list Js.Elem) (s : string) :
  length (Js.appendToLast a s) = length a.
Proof.
  unfold Js.appendToLast. destruct (length a) as [| last] eqn:Hlen.
  - exact Hlen.
  - rewrite assign_length. lia.
Qed.

Lemma push_length (a : list Js.Elem) (v : Js.Elem) :
  length (Js.push a v) = S (length a).
Proof.
  unfold Js.push. rewrite length_app. simpl. lia.
Qed.

Lemma hasElem_in_range (uniqueValues : StringSet.t) (cols : list string)
  (i : nat) :
  StringSet.hasElem uniqueValues (Js.index cols i) = true -> i < length cols.
Proof.
  unfold Js.index. intros Hhas. apply nth_error_Some.
  destruct (nth_error cols i); [discriminate | discriminate Hhas].
Qed.

End ArrayFacts.

(** ** The traced alignment computes the alignment *)

Section Erasure.

Import LineParser.

Variable sep : string.
Variable cols : list string.

Lemma traced_pushPrevious (n : nat) :
  forall c, fst (Traced.pushPrevious cols n c) = pushPrevious cols n c.
Proof.
  induction n as [| n IH]; intros c; simpl; [reflexivity |].
  specialize (IH {| result := Js.push (result c) (Js.index cols (colIndex c));
                    colIndex := S (colIndex c) |}).
  destruct (Traced.pushPrevious cols n _) as [c' log]. exact IH.
Qed.

Lemma traced_scan (uniqueValues : StringSet.t) (colIndex fuel : nat) :
  forall extraColIndex,
    fst (Traced.scan cols uniqueValues colIndex fuel extraColIndex)
    = scan cols uniqueValues colIndex fuel extraColIndex.
Proof.
  induction fuel as [| fuel IH]; intros extraColIndex; simpl.
  - destruct (StringSet.hasElem _ _); [reflexivity |].
    destruct (_ <=? _); reflexivity.
  - destruct (StringSet.hasElem _ _); [reflexivity |].
    destruct (_ <=? _); [reflexivity |].
    specialize (IH (S extraColIndex)).
    destruct (Traced.scan cols uniqueValues colIndex fuel (S extraColIndex)).
    exact IH.
Qed.

Lemma traced_mergeExtra (colIndex n : nat) :
  forall i result,
    fst (Traced.mergeExtra sep cols colIndex n i result)
    = mergeExtra sep cols colIndex n i result.
Proof.
  induction n as [| n IH]; intros i result; simpl; [reflexivity |].
  specialize
    (IH (S i)
        (Js.appendToLast result
           (sep ++ Js.toStr (Js.index cols (colIndex + i)))%string)).
  destruct (Traced.mergeExtra sep cols colIndex n (S i) _). exact IH.
Qed.

Lemma traced_mergeRest (n : nat) :
  forall c, fst (Traced.mergeRest sep cols n c) = mergeRest sep cols n c.
Proof.
  induction n as [| n IH]; intros c; simpl; [reflexivity |].
  specialize
    (IH {| result :=
             Js.appendToLast (result c)
               (sep ++ Js.toStr (Js.index cols (colIndex c)))%string;
           colIndex := S (colIndex c) |}).
  destruct (Traced.mergeRest sep cols n _). exact IH.
Qed.

Lemma traced_anchorStep (anchor : AnchorColumn.t) (c : Cursor) :
  fst (Traced.anchorStep sep cols anchor c) = anchorStep sep cols anchor c.
Proof.
  unfold Traced.anchorStep, anchorStep.
  destruct (_ <? _); [reflexivity |].
  pose proof (traced_pushPrevious (AnchorColumn.previousColumns anchor) c)
    as Hpush.
  destruct (Traced.pushPrevious cols _ c) as [c1 log1].
  simpl in Hpush. rewrite <- Hpush.
  destruct (AnchorColumn.metadata anchor) as [md |].
  - destruct (ColumnMetadata.unbounded md).
    + destruct (_ && _); [reflexivity |].
      pose proof (traced_mergeExtra (colIndex c1) 0 0 (result c1)) as Hm.
      destruct (Traced.mergeExtra sep cols (colIndex c1) 0 0 (result c1)).
      simpl in Hm. simpl. now rewrite Hm.
    + pose proof (traced_scan (ColumnMetadata.uniqueValues md) (colIndex c1)
                    (length cols) 0) as Hscan.
      destruct (Traced.scan cols _ (colIndex c1) (length cols) 0)
        as [found log2].
      simpl in Hscan. rewrite <- Hscan.
      destruct found as [extraColIndex |]; [| reflexivity].
      destruct (_ && _); [reflexivity |].
      pose proof (traced_mergeExtra (colIndex c1) extraColIndex 0 (result c1))
        as Hm.
      destruct (Traced.mergeExtra sep cols (colIndex c1) extraColIndex 0
                  (result c1)).
      simpl in Hm. simpl. now rewrite Hm.
  - pose proof (traced_mergeRest (length cols - colIndex c1) c1) as Hrest.
    destruct (Traced.mergeRest sep cols _ c1). simpl in Hrest. simpl.
    now rewrite Hrest.
Qed.

Lemma traced_forEachAnchor (anchors : list AnchorColumn.t) :
  forall c,
    fst (Traced.forEachAnchor sep cols anchors c)
    = forEachAnchor sep cols anchors c.
Proof.
  induction anchors as [| anchor rest IH]; intros c; simpl; [reflexivity |].
  pose proof (traced_anchorStep anchor c) as Hstep.
  destruct (Traced.anchorStep sep cols anchor c) as [r log].
  simpl in Hstep. rewrite <- Hstep.
  destruct r as [c' |]; [| reflexivity].
  specialize (IH c').
  destruct (Traced.forEachAnchor sep cols rest c'). exact IH.
Qed.

(** The traced function returns what [#tryParseColumns] returns. *)
Lemma traced_tryParseColumns (metadata : FileMetadata.t) :
  fst (Traced.tryParseColumns sep cols metadata)
  = tryParseColumns sep cols metadata.
Proof.
  unfold Traced.tryParseColumns, tryParseColumns.
  destruct (_ <? _); [reflexivity |].
  pose proof (traced_forEachAnchor (FileMetadata.anchorColumns metadata)
                {| result := []; colIndex := 0 |}) as Hloop.
  destruct (Traced.forEachAnchor sep cols _ _) as [r log].
  simpl in Hloop. rewrite <- Hloop.
  destruct r; reflexivity.
Qed.

End Erasure.

(** ** The accesses of an alignment *)

Section Accesses.

Import LineParser.

Variable sep : string.
Variable cols : list string.

Lemma pushPrevious_colIndex (n : nat) :
  forall c, colIndex (pushPrevious cols n c) = colIndex c + n.
Proof.
  induction n as [| n IH]; intros c; simpl; [lia |].
  rewrite IH. simpl. lia.
Qed.

Lemma pushPrevious_length (n : nat) :
  forall c, length (result (pushPrevious cols n c)) = length (result c) + n.
Proof.
  induction n as [| n IH]; intros c; simpl; [lia |].
  rewrite IH. simpl. rewrite push_length. lia.
Qed.

Lemma scan_found (uniqueValues : StringSet.t) (colIndex fuel : nat) :
  forall extraColIndex found,
    scan cols uniqueValues colIndex fuel extraColIndex = Some found ->
    StringSet.hasElem uniqueValues (Js.index cols (colIndex + found)) = true
    /\ extraColIndex <= found.
Proof.
  induction fuel as [| fuel IH]; intros extraColIndex found; simpl.
  - destruct (StringSet.hasElem _ _) eqn:Hhas.
    + intros [= <-]. now split.
    + destruct (_ <=? _); discriminate.
  - destruct (StringSet.hasElem _ _) eqn:Hhas.
    + intros [= <-]. now split.
    + destruct (_ <=? _); [discriminate |].
      intros Hscan. apply IH in Hscan. destruct Hscan. split; [assumption | lia].
Qed.

Lemma pushPrevious_tolerated (n : nat) :
  forall c,
    colIndex c + n <= length cols ->
    Forall (Traced.tolerated cols) (snd (Traced.pushPrevious cols n c)).
Proof.
  induction n as [| n IH]; intros c Hle; simpl; [constructor |].
  specialize (IH {| result := Js.push (result c) (Js.index cols (colIndex c));
                    colIndex := S (colIndex c) |}).
  destruct (Traced.pushPrevious cols n _) as [c' log]. simpl in *.
  constructor; [simpl; lia | apply IH; lia].
Qed.

Lemma scan_tolerated (uniqueValues : StringSet.t) (colIndex fuel : nat) :
  forall extraColIndex,
    colIndex + extraColIndex <= length cols ->
    length cols <= fuel + extraColIndex + colIndex + 1 ->
    Forall (Traced.tolerated cols)
      (snd (Traced.scan cols uniqueValues colIndex fuel extraColIndex)).
Proof.
  induction fuel as [| fuel IH]; intros extraColIndex Hle Hfuel; simpl.
  - destruct (StringSet.hasElem _ _); [repeat constructor; exact Hle |].
    destruct (_ <=? _) eqn:Hend; [repeat constructor; exact Hle |].
    apply Nat.leb_gt in Hend. lia.
  - destruct (StringSet.hasElem _ _); [repeat constructor; exact Hle |].
    destruct (_ <=? _) eqn:Hend; [repeat constructor; exact Hle |].
    apply Nat.leb_gt in Hend.
    specialize (IH (S extraColIndex)).
    destruct (Traced.scan cols uniqueValues colIndex fuel (S extraColIndex)).
    simpl in *. constructor; [exact Hle | apply IH; lia].
Qed.

Lemma mergeExtra_tolerated (colIndex n : nat) :
  forall i result,
    (n = 0 \/ 0 < length result) ->
    colIndex + i + n <= length cols ->
    Forall (Traced.tolerated cols)
      (snd (Traced.mergeExtra sep cols colIndex n i result)).
Proof.
  induction n as [| n IH]; intros i result Hne Hle; simpl; [constructor |].
  destruct Hne as [Hn | Hne]; [discriminate |].
  specialize
    (IH (S i)
        (Js.appendToLast result
           (sep ++ Js.toStr (Js.index cols (colIndex + i)))%string)).
  destruct (Traced.mergeExtra sep cols colIndex n (S i) _). simpl in *.
  constructor; [exact Hne |]. constructor; [simpl; lia |].
  apply IH; [right; now rewrite appendToLast_length | lia].
Qed.

Lemma mergeRest_tolerated (n : nat) :
  forall c,
    (n = 0 \/ 0 < length (result c)) ->
    colIndex c + n <= length cols ->
    Forall (Traced.tolerated cols) (snd (Traced.mergeRest sep cols n c)).
Proof.
  induction n as [| n IH]; intros c Hne Hle; simpl; [constructor |].
  destruct Hne as [Hn | Hne]; [discriminate |].
  specialize
    (IH {| result :=
             Js.appendToLast (result c)
               (sep ++ Js.toStr (Js.index cols (colIndex c)))%string;
           colIndex := S (colIndex c) |}).
  destruct (Traced.mergeRest sep cols n _). simpl in *.
  constructor; [exact Hne |]. constructor; [simpl; lia |].
  apply IH; [right; now rewrite appendToLast_length | lia].
Qed.

Lemma anchorStep_tolerated (anchor : AnchorColumn.t) (c : Cursor) :
  AnchorColumn.wellFormed anchor ->
  Forall (Traced.tolerated cols) (snd (Traced.anchorStep sep cols anchor c)).
Proof.
  intros Hwf. unfold Traced.anchorStep.
  destruct (_ <? _) eqn:Hroom; [constructor |].
  apply Nat.ltb_ge in Hroom.
  pose proof (traced_pushPrevious cols (AnchorColumn.previousColumns anchor) c)
    as Hfst.
  pose proof (pushPrevious_tolerated _ c Hroom) as Hpush.
  destruct (Traced.pushPrevious cols _ c) as [c1 log1].
  simpl in Hfst, Hpush.
  assert (Hci : colIndex c1
                = colIndex c + AnchorColumn.previousColumns anchor)
    by (rewrite Hfst; apply pushPrevious_colIndex).
  assert (Hlen : length (result c1)
                 = length (result c) + AnchorColumn.previousColumns anchor)
    by (rewrite Hfst; apply pushPrevious_length).
  unfold AnchorColumn.wellFormed in Hwf.
  destruct (AnchorColumn.metadata anchor) as [md |].
  - rewrite Hwf.
    pose proof (traced_scan cols (ColumnMetadata.uniqueValues md) (colIndex c1)
                  (length cols) 0) as Hres.
    assert (Hscan : Forall (Traced.tolerated cols)
                      (snd (Traced.scan cols (ColumnMetadata.uniqueValues md)
                              (colIndex c1) (length cols) 0)))
      by (apply scan_tolerated; lia).
    destruct (Traced.scan cols _ (colIndex c1) (length cols) 0)
      as [found log2].
    simpl in Hres, Hscan.
    destruct found as [extraColIndex |]; simpl;
      [| apply Forall_app; now split].
    destruct (_ && _) eqn:Hnoise; simpl; [apply Forall_app; now split |].
    symmetry in Hres. apply scan_found in Hres. destruct Hres as [Hhas _].
    apply hasElem_in_range in Hhas.
    assert (Hmerge : Forall (Traced.tolerated cols)
                       (snd (Traced.mergeExtra sep cols (colIndex c1)
                               extraColIndex 0 (result c1)))).
    { apply mergeExtra_tolerated; [| lia].
      apply andb_false_iff in Hnoise.
      destruct Hnoise as [Hz | Hp].
      - left. apply Nat.ltb_ge in Hz. lia.
      - right. apply Nat.eqb_neq in Hp. lia. }
    destruct (Traced.mergeExtra sep cols (colIndex c1) extraColIndex 0
                (result c1)) as [merged log3].
    simpl in *. repeat (apply Forall_app; split); try assumption.
    repeat constructor. simpl. lia.
  - assert (Hrest : Forall (Traced.tolerated cols)
                      (snd (Traced.mergeRest sep cols
                              (length cols - colIndex c1) c1)))
      by (apply mergeRest_tolerated; [right |]; lia).
    destruct (Traced.mergeRest sep cols _ c1) as [c2 log2].
    simpl in *. apply Forall_app; now split.
Qed.

Lemma forEachAnchor_tolerated (anchors : list AnchorColumn.t) :
  Forall AnchorColumn.wellFormed anchors ->
  forall c,
    Forall (Traced.tolerated cols)
      (snd (Traced.forEachAnchor sep cols anchors c)).
Proof.
  induction 1 as [| anchor rest Hwf _ IH]; intros c; simpl; [constructor |].
  pose proof (anchorStep_tolerated anchor c Hwf) as Hstep.
  destruct (Traced.anchorStep sep cols anchor c) as [r log].
  destruct r as [c' |]; [| exact Hstep].
  specialize (IH c').
  destruct (Traced.forEachAnchor sep cols rest c').
  simpl in *. apply Forall_app; now split.
Qed.

(** Every access of an alignment against derived anchors is tolerated. *)
Lemma tryParseColumns_tolerated (metadata : FileMetadata.t) :
  Forall (Traced.tolerated cols)
    (snd (Traced.tryParseColumns sep cols metadata)).
Proof.
  unfold Traced.tryParseColumns.
  destruct (_ <? _); [constructor |].
  pose proof (forEachAnchor_tolerated
                (FileMetadata.anchorColumns metadata)
                (getAnchorColumns_wellFormed (FileMetadata.columns metadata))
                {| result := []; colIndex := 0 |}) as Hloop.
  destruct (Traced.forEachAnchor sep cols _ _) as [r log].
  destruct r; exact Hloop.
Qed.

End Accesses.

(** ** Derived anchors *)

Section DerivedAnchors.

Import AnchorColumn.

(** C10: in the list derived from any column sequence, (a) an anchor
    that carries a column carries a bounded one, (b) an anchor followed by
    another anchor carries a column, so that only the last can be without
    one, (c) the [previousColumns] counts and the carried columns add up
    to the number of columns; hence (d) no alignment against the derived
    anchors accepts an anchor's field unscanned. *)
Theorem getAnchorColumns_invariant (columns : list ColumnMetadata.t) :
  Forall (fun a => forall md, metadata a = Some md ->
                              ColumnMetadata.unbounded md = false)
    (getAnchorColumns columns)
  /\ (forall before a after,
        getAnchorColumns columns = before ++ a :: after ->
        after <> [] -> metadata a <> None)
  /\ columnsCovered (getAnchorColumns columns) = length columns
  /\ (forall sep cols,
        ~ In Traced.AcceptUnscanned
            (snd (Traced.tryParseColumns sep cols
                    {| FileMetadata.columns := columns |}))).
Proof.
  split; [| split; [| split]].
  - pose proof (getAnchorColumns_wellFormed columns) as Hwf.
    rewrite Forall_forall in *. intros a Hin md Hmd.
    specialize (Hwf a Hin). unfold wellFormed in Hwf. now rewrite Hmd in Hwf.
  - intros before a after Heq Hne.
    pose proof (loop_removelast_metadata columns 0) as Hall.
    fold (getAnchorColumns columns) in Hall. rewrite Heq in Hall.
    rewrite removelast_app in Hall by discriminate.
    apply Forall_app in Hall. destruct Hall as [_ Hall].
    destruct after as [| next after']; [contradiction |].
    cbn [removelast] in Hall. inversion Hall as [| ? ? Ha _]; subst.
    unfold hasMetadata in Ha. now destruct (metadata a).
  - unfold getAnchorColumns. rewrite loop_columnsCovered.
    now destruct columns.
  - intros sep cols Hin.
    pose proof (tryParseColumns_tolerated sep cols
                  {| FileMetadata.columns := columns |}) as Hsafe.
    rewrite Forall_forall in Hsafe. exact (Hsafe _ Hin).
Qed.

Lemma getAnchorColumns_invariant_witness :
  let columns := FileMetadata.columns Sample.mixed in
  getAnchorColumns columns
  = [{| previousColumns := 2;
        metadata :=
          Some (Sample.bounded
                  ["col-3-val-1"; "col-3-val-2"; "col-3-val-3"]%string) |}]
      ++ [{| previousColumns := 2; metadata := None |}]
  /\ metadata
       {| previousColumns := 2;
          metadata :=
            Some (Sample.bounded
                    ["col-3-val-1"; "col-3-val-2"; "col-3-val-3"]%string) |}
     <> None
  /\ columnsCovered (getAnchorColumns columns) = 5.
Proof.
  intros columns.
  destruct (getAnchorColumns_invariant columns) as [_ [Hlast [Hsum _]]].
  split; [reflexivity |].
  split; [| exact Hsum].
  apply (Hlast [] _ [{| previousColumns := 2; metadata := None |}]).
  - reflexivity.
  - discriminate.
Defined.

End DerivedAnchors.

(** ** The alignment loop *)

Section Alignment.

Import LineParser.

Variable sep : string.
Variable cols : list string.

Lemma scan_unfold (uniqueValues : StringSet.t) (colIndex fuel extra : nat) :
  scan cols uniqueValues colIndex fuel extra
  = if StringSet.hasElem uniqueValues (Js.index cols (colIndex + extra))
    then Some extra
    else if length cols <=? S extra + colIndex
    then None
    else
      match fuel with
      | 0 => None
      | S fuel' => scan cols uniqueValues colIndex fuel' (S extra)
      end.
Proof.
  destruct fuel; reflexivity.
Qed.

(** A scan whose first probe fails ends in [null] or beyond its start. *)
Lemma scan_skips (uniqueValues : StringSet.t) (colIndex fuel extra : nat) :
  StringSet.hasElem uniqueValues (Js.index cols (colIndex + extra)) = false ->
  scan cols uniqueValues colIndex fuel extra = None
  \/ exists found,
       scan cols uniqueValues colIndex fuel extra = Some found
       /\ extra < found.
Proof.
  intros Hmiss. rewrite scan_unfold, Hmiss.
  destruct (_ <=? _); [now left |].
  destruct fuel as [| fuel']; [now left |].
  destruct (scan cols uniqueValues colIndex fuel' (S extra)) as [found |] eqn:Hscan;
    [| now left].
  right. exists found. split; [reflexivity |].
  apply scan_found in Hscan. lia.
Qed.

Lemma forEachAnchor_app (before after : list AnchorColumn.t) :
  forall c,
    forEachAnchor sep cols (before ++ after) c
    = match forEachAnchor sep cols before c with
      | None => None
      | Some c' => forEachAnchor sep cols after c'
      end.
Proof.
  induction before as [| anchor before IH]; intros c; simpl; [reflexivity |].
  destruct (anchorStep sep cols anchor c); [apply IH | reflexivity].
Qed.

(** Noise in front of a bounded anchor that follows no free-text column
    makes the step fail. *)
Lemma anchorStep_noise_nowhere (anchor : AnchorColumn.t)
  (md : ColumnMetadata.t) (c : Cursor) :
  AnchorColumn.metadata anchor = Some md ->
  ColumnMetadata.unbounded md = false ->
  AnchorColumn.previousColumns anchor = 0 ->
  StringSet.hasElem (ColumnMetadata.uniqueValues md)
    (Js.index cols (colIndex c)) = false ->
  anchorStep sep cols anchor c = None.
Proof.
  intros Hmd Hb Hprev Hmiss. unfold anchorStep.
  rewrite Hprev, Hmd, Hb. cbn [pushPrevious].
  destruct (_ <? _); [reflexivity |].
  destruct (scan_skips (ColumnMetadata.uniqueValues md) (colIndex c)
              (length cols) 0) as [Hnone | [found [Hsome Hpos]]].
  - now rewrite Nat.add_0_r.
  - now rewrite Hnone.
  - rewrite Hsome.
    replace (0 <? found) with true by (symmetry; now apply Nat.ltb_lt).
    reflexivity.
Qed.

(** C9: when the alignment reaches an anchor that carries a bounded
    column and has [previousColumns = 0], and the field at the cursor is
    not one of the column's values (so the scan skips at least one
    field), the attempt returns [null]: no row is produced. *)
Theorem noise_before_leading_anchor_fails (metadata : FileMetadata.t)
  (before after : list AnchorColumn.t) (anchor : AnchorColumn.t)
  (md : ColumnMetadata.t) (c : Cursor) :
  FileMetadata.anchorColumns metadata = before ++ anchor :: after ->
  AnchorColumn.metadata anchor = Some md ->
  ColumnMetadata.unbounded md = false ->
  AnchorColumn.previousColumns anchor = 0 ->
  forEachAnchor sep cols before {| result := []; colIndex := 0 |} = Some c ->
  StringSet.hasElem (ColumnMetadata.uniqueValues md)
    (Js.index cols (colIndex c)) = false ->
  tryParseColumns sep cols metadata = None.
Proof.
  intros Hanchors Hmd Hb Hprev Hbefore Hmiss. unfold tryParseColumns.
  destruct (_ <? _); [reflexivity |].
  rewrite Hanchors, forEachAnchor_app, Hbefore. cbn [forEachAnchor].
  now rewrite (anchorStep_noise_nowhere anchor md c).
Qed.

End Alignment.

Lemma noise_before_leading_anchor_fails_witness :
  let first :=
    Sample.bounded ["col-1-val-1"; "col-1-val-2"; "col-1-val-3"]%string in
  let second :=
    Sample.bounded ["col-2-val-1"; "col-2-val-2"; "col-2-val-3"]%string in
  LineParser.tryParseColumns " "
    ["col-1-val-1"; "noise"; "col-2-val-1"; "text"]%string
    Sample.twoBoundedThenFree = None.
Proof.
  intros first second.
  apply (noise_before_leading_anchor_fails " "
           ["col-1-val-1"; "noise"; "col-2-val-1"; "text"]%string
           Sample.twoBoundedThenFree
           [{| AnchorColumn.previousColumns := 0;
               AnchorColumn.metadata := Some first |}]
           [{| AnchorColumn.previousColumns := 1;
               AnchorColumn.metadata := None |}]
           {| AnchorColumn.previousColumns := 0;
              AnchorColumn.metadata := Some second |}
           second
           {| LineParser.result := [Some "col-1-val-1"%string];
              LineParser.colIndex := 1 |});
    reflexivity.
Defined.

(** ** Where an alignment reads the raw fields *)

Section StrictReads.

Import LineParser.

Variable sep : string.
Variable cols : list string.

Lemma pushPrevious_within (n : nat) :
  forall c,
    colIndex c + n <= length cols ->
    Forall (Reads.within cols) (snd (Traced.pushPrevious cols n c)).
Proof.
  induction n as [| n IH]; intros c Hle; simpl; [constructor |].
  specialize (IH {| result := Js.push (result c) (Js.index cols (colIndex c));
                    colIndex := S (colIndex c) |}).
  destruct (Traced.pushPrevious cols n _) as [c' log]. simpl in *.
  constructor; [simpl; lia | apply IH; lia].
Qed.

Lemma scan_within (uniqueValues : StringSet.t) (colIndex fuel : nat) :
  forall extraColIndex,
    colIndex + extraColIndex < length cols ->
    length cols <= fuel + extraColIndex + colIndex + 1 ->
    Forall (Reads.within cols)
      (snd (Traced.scan cols uniqueValues colIndex fuel extraColIndex)).
Proof.
  induction fuel as [| fuel IH]; intros extraColIndex Hlt Hfuel; simpl.
  - destruct (StringSet.hasElem _ _); [repeat constructor; exact Hlt |].
    destruct (_ <=? _) eqn:Hend; [repeat constructor; exact Hlt |].
    apply Nat.leb_gt in Hend. lia.
  - destruct (StringSet.hasElem _ _); [repeat constructor; exact Hlt |].
    destruct (_ <=? _) eqn:Hend; [repeat constructor; exact Hlt |].
    apply Nat.leb_gt in Hend.
    specialize (IH (S extraColIndex)).
    destruct (Traced.scan cols uniqueValues colIndex fuel (S extraColIndex)).
    simpl in *. constructor; [exact Hlt | apply IH; lia].
Qed.

(** A scan that starts at the end of the fields reads once, beyond the
    last field, and returns [null]. *)
Lemma scan_at_end (uniqueValues : StringSet.t) (colIndex fuel extra : nat) :
  length cols <= colIndex + extra ->
  Traced.scan cols uniqueValues colIndex fuel extra
  = (None, [Traced.ReadCols (colIndex + extra)]).
Proof.
  intros Hend.
  assert (Hat : Js.index cols (colIndex + extra) = None)
    by (apply nth_error_None; exact Hend).
  assert (Hguard : (length cols <=? S extra + colIndex) = true)
    by (apply Nat.leb_le; lia).
  destruct fuel; cbn [Traced.scan]; rewrite Hat; cbn [StringSet.hasElem];
    now rewrite Hguard.
Qed.

Lemma mergeExtra_within (colIndex n : nat) :
  forall i result,
    (n = 0 \/ 0 < length result) ->
    colIndex + i + n <= length cols ->
    Forall (Reads.within cols)
      (snd (Traced.mergeExtra sep cols colIndex n i result)).
Proof.
  induction n as [| n IH]; intros i result Hne Hle; simpl; [constructor |].
  destruct Hne as [Hn | Hne]; [discriminate |].
  specialize
    (IH (S i)
        (Js.appendToLast result
           (sep ++ Js.toStr (Js.index cols (colIndex + i)))%string)).
  destruct (Traced.mergeExtra sep cols colIndex n (S i) _). simpl in *.
  constructor; [exact Hne |]. constructor; [simpl; lia |].
  apply IH; [right; now rewrite appendToLast_length | lia].
Qed.

Lemma mergeRest_within (n : nat) :
  forall c,
    (n = 0 \/ 0 < length (result c)) ->
    colIndex c + n <= length cols ->
    Forall (Reads.within cols) (snd (Traced.mergeRest sep cols n c)).
Proof.
  induction n as [| n IH]; intros c Hne Hle; simpl; [constructor |].
  destruct Hne as [Hn | Hne]; [discriminate |].
  specialize
    (IH {| result :=
             Js.appendToLast (result c)
               (sep ++ Js.toStr (Js.index cols (colIndex c)))%string;
           colIndex := S (colIndex c) |}).
  destruct (Traced.mergeRest sep cols n _). simpl in *.
  constructor; [exact Hne |]. constructor; [simpl; lia |].
  apply IH; [right; now rewrite appendToLast_length | lia].
Qed.

Lemma stoppedAtEnd_more (anchors rest : list AnchorColumn.t) (start : Cursor)
  (log : list Traced.Event) :
  Reads.stoppedAtEnd sep cols anchors start log ->
  Reads.stoppedAtEnd sep cols (anchors ++ rest) start log.
Proof.
  intros (before & anchor & after & md & reached & logBefore & pushed
          & logPush & Heq & Hrest).
  exists before, anchor, (after ++ rest), md, reached, logBefore, pushed,
    logPush.
  split; [| exact Hrest].
  rewrite Heq, <- app_assoc. reflexivity.
Qed.

(** One anchor: all its accesses are within, or its scan starts at the
    end of the fields and stops the run. *)
Lemma anchorStep_reads (anchor : AnchorColumn.t) (c : Cursor) :
  AnchorColumn.wellFormed anchor ->
  Forall (Reads.within cols) (snd (Traced.anchorStep sep cols anchor c))
  \/ (fst (Traced.anchorStep sep cols anchor c) = None
      /\ Reads.stoppedAtEnd sep cols [anchor] c
           (snd (Traced.anchorStep sep cols anchor c))).
Proof.
  intros Hwf. unfold Traced.anchorStep.
  destruct (_ <? _) eqn:Hroom; [left; constructor |].
  apply Nat.ltb_ge in Hroom.
  pose proof (traced_pushPrevious cols (AnchorColumn.previousColumns anchor) c)
    as Hfst.
  pose proof (pushPrevious_within _ c Hroom) as Hpushw.
  destruct (Traced.pushPrevious cols _ c) as [c1 log1] eqn:Hpush.
  simpl in Hfst, Hpushw.
  assert (Hci : colIndex c1
                = colIndex c + AnchorColumn.previousColumns anchor)
    by (rewrite Hfst; apply pushPrevious_colIndex).
  assert (Hlen : length (result c1)
                 = length (result c) + AnchorColumn.previousColumns anchor)
    by (rewrite Hfst; apply pushPrevious_length).
  unfold AnchorColumn.wellFormed in Hwf.
  destruct (AnchorColumn.metadata anchor) as [md |] eqn:Hmd.
  - rewrite Hwf.
    destruct (Nat.eq_dec (colIndex c1) (length cols)) as [Hend | Hinside].
    + right.
      assert (Hscan : Traced.scan cols (ColumnMetadata.uniqueValues md)
                        (colIndex c1) (length cols) 0
                      = (None, [Traced.ReadCols (length cols)])).
      { rewrite scan_at_end by lia. now rewrite Nat.add_0_r, Hend. }
      rewrite Hscan. simpl. split; [reflexivity |].
      exists [], anchor, [], md, c, [], c1, log1.
      repeat split; assumption.
    + left.
      pose proof (traced_scan cols (ColumnMetadata.uniqueValues md)
                    (colIndex c1) (length cols) 0) as Hres.
      assert (Hscan : Forall (Reads.within cols)
                        (snd (Traced.scan cols
                                (ColumnMetadata.uniqueValues md)
                                (colIndex c1) (length cols) 0)))
        by (apply scan_within; lia).
      destruct (Traced.scan cols _ (colIndex c1) (length cols) 0)
        as [found log2].
      simpl in Hres, Hscan.
      destruct found as [extraColIndex |]; simpl;
        [| apply Forall_app; now split].
      destruct (_ && _) eqn:Hnoise; simpl; [apply Forall_app; now split |].
      symmetry in Hres. apply scan_found in Hres. destruct Hres as [Hhas _].
      apply hasElem_in_range in Hhas.
      assert (Hmerge : Forall (Reads.within cols)
                         (snd (Traced.mergeExtra sep cols (colIndex c1)
                                 extraColIndex 0 (result c1)))).
      { apply mergeExtra_within; [| lia].
        apply andb_false_iff in Hnoise.
        destruct Hnoise as [Hz | Hp].
        - left. apply Nat.ltb_ge in Hz. lia.
        - right. apply Nat.eqb_neq in Hp. lia. }
      destruct (Traced.mergeExtra sep cols (colIndex c1) extraColIndex 0
                  (result c1)) as [merged log3].
      simpl in *. repeat (apply Forall_app; split); try assumption.
      repeat constructor. exact Hhas.
  - left.
    assert (Hrest : Forall (Reads.within cols)
                      (snd (Traced.mergeRest sep cols
                              (length cols - colIndex c1) c1)))
      by (apply mergeRest_within; [right |]; lia).
    destruct (Traced.mergeRest sep cols _ c1) as [c2 log2].
    simpl in *. apply Forall_app; now split.
Qed.

Lemma forEachAnchor_reads (anchors : list AnchorColumn.t) :
  Forall AnchorColumn.wellFormed anchors ->
  forall c,
    Forall (Reads.within cols)
      (snd (Traced.forEachAnchor sep cols anchors c))
    \/ (fst (Traced.forEachAnchor sep cols anchors c) = None
        /\ Reads.stoppedAtEnd sep cols anchors c
             (snd (Traced.forEachAnchor sep cols anchors c))).
Proof.
  induction 1 as [| anchor rest Hwf _ IH]; intros c; simpl;
    [left; constructor |].
  pose proof (anchorStep_reads anchor c Hwf) as Hstep.
  destruct (Traced.anchorStep sep cols anchor c) as [r log] eqn:Hrun.
  simpl in Hstep. destruct r as [c' |].
  - destruct Hstep as [Hlog | [Hnone _]]; [| discriminate].
    specialize (IH c').
    destruct (Traced.forEachAnchor sep cols rest c') as [r' log'] eqn:Hrest.
    simpl in *. destruct IH as [Hlog' | [Hnone Hstop]].
    + left. apply Forall_app. now split.
    + right. split; [exact Hnone |].
      destruct Hstop as (before & a & after & md & reached & logBefore
                         & pushed & logPush & Heq & Hmd & Hb & Hbefore
                         & Hpush & Hci & Hscan & Hwithin & Hlast).
      exists (anchor :: before), a, after, md, reached, (log ++ logBefore),
        pushed, logPush.
      repeat split; try assumption.
      * now rewrite Heq.
      * cbn [Traced.forEachAnchor]. now rewrite Hrun, Hbefore.
      * rewrite <- app_assoc. apply Forall_app. now split.
      * rewrite Hlast, <- app_assoc. reflexivity.
  - simpl. destruct Hstep as [Hlog | [_ Hstop]]; [now left | right].
    split; [reflexivity |].
    exact (stoppedAtEnd_more [anchor] rest c log Hstop).
Qed.

(** An alignment against derived anchors keeps every access within its
    array, unless the scan of a bounded anchor starts at the end of the
    fields: that read is then its last access and the result is
    [null]. *)
Lemma tryParseColumns_reads (metadata : FileMetadata.t) :
  Forall (Reads.within cols)
    (snd (Traced.tryParseColumns sep cols metadata))
  \/ (fst (Traced.tryParseColumns sep cols metadata) = None
      /\ Reads.stoppedAtEnd sep cols (FileMetadata.anchorColumns metadata)
           {| result := []; colIndex := 0 |}
           (snd (Traced.tryParseColumns sep cols metadata))).
Proof.
  unfold Traced.tryParseColumns.
  destruct (_ <? _); [left; constructor |].
  pose proof (forEachAnchor_reads
                (FileMetadata.anchorColumns metadata)
                (getAnchorColumns_wellFormed (FileMetadata.columns metadata))
                {| result := []; colIndex := 0 |}) as Hloop.
  destruct (Traced.forEachAnchor sep cols _ _) as [r log].
  simpl in Hloop. destruct r as [c |]; simpl.
  - destruct Hloop as [Hlog | [Hnone _]]; [now left | discriminate].
  - destruct Hloop as [Hlog | [_ Hstop]]; [now left | right].
    split; [reflexivity | exact Hstop].
Qed.

End StrictReads.

(** ** The parser and its pending lines *)

Section ParseFacts.

Import LineParser.

Variable cfg : Config.

Lemma retry_success (lines : list string) :
  forall n skipCount k row,
    skipCount <= k < skipCount + n ->
    attempt cfg lines k = Some row ->
    (forall j, skipCount <= j < k -> attempt cfg lines j = None) ->
    retry cfg lines n skipCount
    = ({| columns := Some row; unprocessedLines := firstn k lines |}, []).
Proof.
  induction n as [| n IH]; intros skipCount k row Hk Hrow Hfirst; [lia |].
  simpl. destruct (Nat.eq_dec skipCount k) as [-> | Hneq].
  - now rewrite Hrow.
  - rewrite Hfirst by lia. apply IH; [lia | assumption |].
    intros j Hj. apply Hfirst. lia.
Qed.

Lemma retry_failure (lines : list string) :
  forall n skipCount,
    (forall j, skipCount <= j < skipCount + n -> attempt cfg lines j = None) ->
    retry cfg lines n skipCount
    = ({| columns := None; unprocessedLines := [] |}, lines).
Proof.
  induction n as [| n IH]; intros skipCount Hnone; [reflexivity |].
  simpl. rewrite Hnone by lia. apply IH. intros j Hj. apply Hnone. lia.
Qed.

Lemma retry_outcome (lines : list string) :
  forall n skipCount out lines',
    retry cfg lines n skipCount = (out, lines') ->
    (columns out <> None -> lines' = [])
    /\ (columns out = None -> unprocessedLines out = [] /\ lines' = lines).
Proof.
  induction n as [| n IH]; intros skipCount out lines'; simpl.
  - intros [= <- <-]. simpl. split; [congruence | now split].
  - destruct (attempt cfg lines skipCount).
    + intros [= <- <-]. simpl. split; [reflexivity | discriminate].
    + apply IH.
Qed.

Lemma parse_outcome (lines : list string) (line : string) :
  forall out lines',
    parse cfg lines line = (out, lines') ->
    (columns out <> None -> lines' = [])
    /\ (columns out = None ->
        unprocessedLines out = [] /\ lines' = lines ++ [line]).
Proof.
  intros out lines'. unfold parse.
  destruct (tryParseColumns _ _ _).
  - intros [= <- <-]. simpl. split; [reflexivity | discriminate].
  - destruct (_ <? _).
    + apply retry_outcome.
    + intros [= <- <-]. simpl. split; [congruence | now split].
Qed.

(** C2: when the new line does not align on its own and at least two
    lines are pending once it is appended, the skip counts
    [0 .. pending.length - 1] are tried in increasing order on the
    merged fields of [pending[k..]]: the first [k] that aligns gives its
    columns with [unprocessedLines = pending[0..k)] and an empty buffer;
    when none aligns the result is [null] columns, no unprocessed line,
    and the buffer keeps every pending line. *)
Theorem parse_retries_smallest_skip_first (lines : list string)
  (line : string) :
  tryParseColumns (mergeSeparator cfg) (Js.split line (delimiter cfg))
    (metadata cfg) = None ->
  2 <= length (lines ++ [line]) ->
  (forall k row,
      k < length (lines ++ [line]) ->
      attempt cfg (lines ++ [line]) k = Some row ->
      (forall j, j < k -> attempt cfg (lines ++ [line]) j = None) ->
      parse cfg lines line
      = ({| columns := Some row;
            unprocessedLines := firstn k (lines ++ [line]) |}, []))
  /\ ((forall k, k < length (lines ++ [line]) ->
                 attempt cfg (lines ++ [line]) k = None) ->
      parse cfg lines line
      = ({| columns := None; unprocessedLines := [] |}, lines ++ [line])).
Proof.
  intros Halone Htwo. unfold parse. rewrite Halone.
  replace (1 <? length (lines ++ [line])) with true
    by (symmetry; apply Nat.ltb_lt; lia).
  split.
  - intros k row Hk Hrow Hfirst. apply retry_success; [lia | assumption |].
    intros j Hj. apply Hfirst. lia.
  - intros Hnone. apply retry_failure. intros j Hj. apply Hnone. lia.
Qed.

(** C4: a call of [parse] that returns columns leaves the buffer empty;
    when the line aligns on its own, the output carries the buffer as it
    was, in order, as [unprocessedLines], and the new buffer is empty. *)
Theorem parse_success_clears_pending (lines : list string) (line : string) :
  (forall out lines',
      parse cfg lines line = (out, lines') ->
      columns out <> None -> lines' = [])
  /\ (forall row,
        tryParseColumns (mergeSeparator cfg) (Js.split line (delimiter cfg))
          (metadata cfg) = Some row ->
        parse cfg lines line
        = ({| columns := Some row; unprocessedLines := lines |}, [])).
Proof.
  split.
  - intros out lines' Hparse. now apply parse_outcome in Hparse.
  - intros row Hrow. unfold parse. now rewrite Hrow.
Qed.

Lemma attempt_last_line (lines : list string) (line : string) :
  attempt cfg (lines ++ [line]) (length lines)
  = tryParseColumns (mergeSeparator cfg) (Js.split line (delimiter cfg))
      (metadata cfg).
Proof.
  unfold attempt, mergedCols.
  rewrite skipn_app, skipn_all, Nat.sub_diag. cbn [app skipn flat_map].
  now rewrite app_nil_r.
Qed.

Lemma retry_none (lines : list string) :
  forall n skipCount out lines',
    retry cfg lines n skipCount = (out, lines') ->
    columns out = None ->
    forall j, skipCount <= j < skipCount + n -> attempt cfg lines j = None.
Proof.
  induction n as [| n IH]; intros skipCount out lines'; simpl.
  - intros _ _ j Hj. lia.
  - destruct (attempt cfg lines skipCount) eqn:Hattempt.
    + intros [= <- _]. discriminate.
    + intros Hrun Hnone j Hj.
      destruct (Nat.eq_dec j skipCount) as [-> | Hneq];
        [exact Hattempt |].
      apply (IH _ _ _ Hrun Hnone). lia.
Qed.

(** [parse] reports [null] exactly when nothing aligns. *)
Lemma parse_none_iff (lines : list string) (line : string) :
  columns (fst (parse cfg lines line)) = None
  <-> forall k, k < length (lines ++ [line]) ->
                attempt cfg (lines ++ [line]) k = None.
Proof.
  pose proof (attempt_last_line lines line) as Halone.
  unfold parse in *. split.
  - destruct (tryParseColumns _ _ _) eqn:Htry; [discriminate |].
    destruct (1 <? length (lines ++ [line])) eqn:Hmany.
    + destruct (retry cfg (lines ++ [line]) (length (lines ++ [line])) 0)
        as [out lines'] eqn:Hrun.
      cbn [fst]. intros Hnone k Hk.
      apply (retry_none _ _ _ _ _ Hrun Hnone). lia.
    + intros _ k Hk. apply Nat.ltb_ge in Hmany.
      rewrite length_app in Hmany, Hk. cbn [length] in Hmany, Hk.
      assert (Hk0 : k = length lines) by lia.
      subst k. exact Halone.
  - intros Hnone.
    rewrite <- Halone, (Hnone (length lines))
      by (rewrite length_app; simpl; lia).
    destruct (1 <? length (lines ++ [line])).
    + rewrite retry_failure; [reflexivity |].
      intros j Hj. apply Hnone. lia.
    + reflexivity.
Qed.

(** C3 (as amended): [parse] reports an alignment failure as [null]
    columns and nothing else: the columns are [null] exactly when neither
    the line alone nor any merge of the pending lines aligns, and then no
    unprocessed line is reported and the line has joined the buffer.
    Every alignment attempt is the result of its traced run, whose fuel
    never runs out and in which every read of the raw fields is below
    their number and every update of the last output value finds one,
    with one exception: when a bounded anchor is reached with all the
    fields consumed, the first probe of its scan reads
    [cols[cols.length]]; that read is the last access of the attempt and
    the attempt returns [null]. *)
Theorem parse_total_failure_is_null (lines : list string) (line : string) :
  (columns (fst (parse cfg lines line)) = None
   <-> forall k, k < length (lines ++ [line]) ->
                 attempt cfg (lines ++ [line]) k = None)
  /\ (forall out lines',
        parse cfg lines line = (out, lines') ->
        columns out = None ->
        unprocessedLines out = [] /\ lines' = lines ++ [line])
  /\ (forall cols,
        fst (Traced.tryParseColumns (mergeSeparator cfg) cols (metadata cfg))
        = tryParseColumns (mergeSeparator cfg) cols (metadata cfg)
        /\ (Forall (Reads.within cols)
              (snd (Traced.tryParseColumns (mergeSeparator cfg) cols
                      (metadata cfg)))
            \/ (tryParseColumns (mergeSeparator cfg) cols (metadata cfg)
                = None
                /\ Reads.stoppedAtEnd (mergeSeparator cfg) cols
                     (FileMetadata.anchorColumns (metadata cfg))
                     {| result := []; colIndex := 0 |}
                     (snd (Traced.tryParseColumns (mergeSeparator cfg) cols
                             (metadata cfg)))))).
Proof.
  split; [| split].
  - apply parse_none_iff.
  - intros out lines' Hparse. now apply parse_outcome in Hparse.
  - intros cols. split; [apply traced_tryParseColumns |].
    rewrite <- traced_tryParseColumns. apply tryParseColumns_reads.
Qed.

End ParseFacts.

Section ParseExamples.

Import LineParser.

Lemma parse_retries_smallest_skip_first_witness :
  let cfg := defaultConfig "|" Sample.twoBoundedThenFree in
  parse cfg ["val-1|val-2"; "col-1-val-1|val-3"; "col-1-val-1|col-2-val-1"]%string
    "val-4|val-5"
  = ({| columns :=
          Some [Some "col-1-val-1"; Some "col-2-val-1"; Some "val-4 val-5"]%string;
        unprocessedLines := ["val-1|val-2"; "col-1-val-1|val-3"]%string |},
     [])
  /\ parse cfg ["val-1|val-2"]%string "col-1-val-1|val-3"
     = ({| columns := None; unprocessedLines := [] |},
        ["val-1|val-2"; "col-1-val-1|val-3"]%string).
Proof.
  intros cfg. split.
  - apply (proj1 (parse_retries_smallest_skip_first cfg
                    ["val-1|val-2"; "col-1-val-1|val-3";
                     "col-1-val-1|col-2-val-1"]%string
                    "val-4|val-5" eq_refl (le_S _ _ (le_S _ _ (le_n 2))))
             2).
    + simpl. lia.
    + reflexivity.
    + intros j Hj. destruct j as [| [| j]]; [reflexivity | reflexivity | lia].
  - apply (proj2 (parse_retries_smallest_skip_first cfg
                    ["val-1|val-2"]%string "col-1-val-1|val-3"
                    eq_refl (le_n 2))).
    intros k Hk. destruct k as [| [| k]]; [reflexivity | reflexivity |].
    simpl in Hk. lia.
Defined.

Lemma parse_success_clears_pending_witness :
  let cfg := defaultConfig "|" Sample.mixed in
  parse cfg ["val-1|val-2|val-3"; "val-4|val-5"]%string
    "val-6|val-7|col-3-val-1|val-8|val-9"
  = ({| columns :=
          Some [Some "val-6"; Some "val-7"; Some "col-3-val-1";
                Some "val-8"; Some "val-9"]%string;
        unprocessedLines := ["val-1|val-2|val-3"; "val-4|val-5"]%string |},
     []).
Proof.
  intros cfg.
  apply (proj2 (parse_success_clears_pending cfg
                  ["val-1|val-2|val-3"; "val-4|val-5"]%string
                  "val-6|val-7|col-3-val-1|val-8|val-9")).
  reflexivity.
Defined.

Lemma parse_total_failure_is_null_witness :
  let cfg := defaultConfig "|" Sample.freeThenTwoBounded in
  columns (fst (parse cfg [] "x|n|a")) = None
  /\ unprocessedLines {| columns := None; unprocessedLines := [] |} = []
  /\ ["x|n|a"%string] = [] ++ ["x|n|a"%string].
Proof.
  intros cfg. split.
  - apply (proj2 (proj1 (parse_total_failure_is_null cfg [] "x|n|a"))).
    intros k Hk. destruct k as [| k]; [reflexivity | simpl in Hk; lia].
  - apply (proj1 (proj2 (parse_total_failure_is_null cfg [] "x|n|a"))
             {| columns := None; unprocessedLines := [] |} ["x|n|a"%string]);
      reflexivity.
Defined.

(** C3 (as stated) fails: aligning the fields of ["x|n|a"] against one
    free-text column followed by two bounded columns reads [cols[3]] of
    three fields, after the first anchor has consumed all of them. *)
Lemma alignment_reads_past_the_fields :
  let cols := Js.split "x|n|a" "|" in
  In (Traced.ReadCols 3)
    (snd (Traced.tryParseColumns " " cols Sample.freeThenTwoBounded))
  /\ Traced.inBounds cols (Traced.ReadCols 3) = false
  /\ fst (parse (defaultConfig "|" Sample.freeThenTwoBounded) [] "x|n|a")
     = {| columns := None; unprocessedLines := [] |}.
Proof.
  vm_compute. repeat split. tauto.
Qed.

(** C1 fails on the code: with one free-text column followed by two
    bounded columns, the fields of ["x|n|a|b"] align, the first anchor
    absorbs the noise field ["n"], and the row returned has four
    positions for three columns, the third of them a hole. *)
Theorem tryParseColumns_leaves_hole :
  length (FileMetadata.columns Sample.freeThenTwoBounded) = 3
  /\ tryParseColumns " " (Js.split "x|n|a|b" "|") Sample.freeThenTwoBounded
     = Some [Some "x n"; Some "a"; None; Some "b"]%string
  /\ parse (defaultConfig "|" Sample.freeThenTwoBounded) [] "x|n|a|b"
     = ({| columns := Some [Some "x n"; Some "a"; None; Some "b"]%string;
           unprocessedLines := [] |}, []).
Proof.
  repeat split.
Qed.

(** The scenarios of the parser's test suite. *)

Example bounded_exact_count :
  fst (parse (defaultConfig "|"
                {| FileMetadata.columns :=
                     [Sample.bounded ["col-1-val-1"; "col-1-val-2"]%string;
                      Sample.bounded ["col-2-val-1"; "col-2-val-2"]%string;
                      Sample.bounded ["col-3-val-3"]%string] |})
         [] "col-1-val-1|col-2-val-2|col-3-val-3")
  = {| columns :=
         Some [Some "col-1-val-1"; Some "col-2-val-2"; Some "col-3-val-3"]%string;
       unprocessedLines := [] |}.
Proof. reflexivity. Qed.

Example unbounded_merges_right :
  fst (parse (defaultConfig "|"
                {| FileMetadata.columns :=
                     [Sample.free; Sample.free; Sample.free] |})
         [] "val-1|val-2|val-3|val-4|val-5")
  = {| columns := Some [Some "val-1"; Some "val-2";
                        Some "val-3 val-4 val-5"]%string;
       unprocessedLines := [] |}.
Proof. reflexivity. Qed.

Example mixed_merges_before_each_anchor :
  fst (parse (defaultConfig "|" Sample.mixed) []
         "val-1|val-2|val-3|val-4|col-3-val-1|val-5|val-6|val-7|val-8")
  = {| columns := Some [Some "val-1"; Some "val-2 val-3 val-4";
                        Some "col-3-val-1"; Some "val-5";
                        Some "val-6 val-7 val-8"]%string;
       unprocessedLines := [] |}.
Proof. reflexivity. Qed.

Example mixed_merges_lines :
  fst (parseAll (defaultConfig "|" Sample.mixed) []
         ["val-1|val-2|val-3"; "col-3-val-1|val-4"; "val-5|val-6"]%string)
  = [ {| columns := None; unprocessedLines := [] |};
      {| columns := None; unprocessedLines := [] |};
      {| columns := Some [Some "val-1"; Some "val-2 val-3";
                          Some "col-3-val-1"; Some "val-4";
                          Some "val-5 val-6"]%string;
         unprocessedLines := [] |} ].
Proof. reflexivity. Qed.

End ParseExamples.

(* ================================================================== *)
(** * Part III: further properties of the code *)
(* ================================================================== *)

(** ** What a bounded column remembers *)

Section Remembering.

Import ColumnMetadata.

Lemma set_add_has_new (s : StringSet.t) (v : string) :
  StringSet.has (StringSet.add s v) v = true.
Proof.
  unfold StringSet.add. destruct (StringSet.has s v) eqn:Hhas; [exact Hhas |].
  apply has_true_iff, in_or_app. right. now left.
Qed.

Lemma set_add_has_iff (s : StringSet.t) (v x : string) :
  StringSet.has (StringSet.add s v) x = true
  <-> StringSet.has s x = true \/ x = v.
Proof.
  unfold StringSet.add. destruct (StringSet.has s v) eqn:Hhas.
  - split; [now left |]. intros [Hx | ->]; assumption.
  - rewrite !has_true_iff, in_app_iff. simpl. intuition congruence.
Qed.

Lemma set_add_size (s : StringSet.t) (v : string) :
  StringSet.size s <= StringSet.size (StringSet.add s v).
Proof.
  unfold StringSet.add, StringSet.size.
  destruct (StringSet.has s v); [lia |]. rewrite length_app. lia.
Qed.

Lemma set_fold_add_size (values : list string) :
  forall s, StringSet.size s
            <= StringSet.size (fold_left StringSet.add values s).
Proof.
  induction values as [| v values IH]; intros s; simpl; [lia |].
  etransitivity; [apply (set_add_size s v) | apply IH].
Qed.

Lemma set_fold_add_NoDup (values : list string) :
  forall s, NoDup s -> NoDup (fold_left StringSet.add values s).
Proof.
  induction values as [| v values IH]; intros s Hs; simpl; [assumption |].
  apply IH. now apply add_NoDup.
Qed.

Lemma set_fold_add_has (values : list string) :
  forall s x,
    StringSet.has (fold_left StringSet.add values s) x = true
    <-> StringSet.has s x = true \/ In x values.
Proof.
  induction values as [| v values IH]; intros s x; simpl.
  - tauto.
  - rewrite IH, set_add_has_iff. intuition congruence.
Qed.

Lemma add_bounded_inv (c : t) (value : string) (maxCardinality : Z) :
  unbounded (add c value maxCardinality) = false ->
  unbounded c = false
  /\ uniqueValues (add c value maxCardinality)
     = StringSet.add (uniqueValues c) value.
Proof.
  unfold add. destruct (unbounded c) eqn:Hu; simpl; [discriminate |].
  destruct (_ <? _)%Z; simpl; [discriminate |]. now split.
Qed.

Lemma addAll_cons (c : t) (value : string) (maxCardinality : Z)
  (calls : list (string * Z)) :
  addAll c ((value, maxCardinality) :: calls)
  = addAll (add c value maxCardinality) calls.
Proof.
  reflexivity.
Qed.

(** A column that is still bounded after a sequence of [add] calls,
    whatever their ceilings, was bounded before, and its set is the set
    it had, extended by the values of the calls in the order in which
    they were first seen. So a value belongs to it exactly when it was
    there before or was added. *)
Theorem bounded_column_remembers_values (c : t) (calls : list (string * Z)) :
  unbounded (addAll c calls) = false ->
  unbounded c = false
  /\ uniqueValues (addAll c calls)
     = fold_left StringSet.add (map fst calls) (uniqueValues c)
  /\ (forall v,
        StringSet.has (uniqueValues (addAll c calls)) v = true
        <-> StringSet.has (uniqueValues c) v = true \/ In v (map fst calls)).
Proof.
  revert c. induction calls as [| [value maxCardinality] calls IH]; intros c.
  - intros Hb. simpl. repeat split; tauto.
  - rewrite addAll_cons. intros Hb.
    destruct (IH _ Hb) as [Hb1 [Heq _]].
    destruct (add_bounded_inv _ _ _ Hb1) as [Hb0 Hset].
    assert (Hall : uniqueValues (addAll (add c value maxCardinality) calls)
                   = fold_left StringSet.add
                       (map fst ((value, maxCardinality) :: calls))
                       (uniqueValues c))
      by (rewrite Heq, Hset; reflexivity).
    split; [exact Hb0 |]. split; [exact Hall |].
    intros v. rewrite Hall. apply set_fold_add_has.
Qed.

Lemma bounded_column_remembers_values_witness :
  let c := addAll (new "col")
             [("Dark", 2%Z); ("Light", 5%Z); ("Dark", 2%Z)]%string in
  uniqueValues c = ["Dark"; "Light"]%string
  /\ StringSet.has (uniqueValues c) "Light" = true.
Proof.
  intros c.
  destruct (bounded_column_remembers_values (new "col")
              [("Dark", 2%Z); ("Light", 5%Z); ("Dark", 2%Z)]%string eq_refl)
    as [_ [Hset Hmem]].
  split; [exact Hset |].
  apply Hmem. right. simpl. tauto.
Defined.

(** The number of distinct values decides, for a fixed ceiling. *)
Lemma addAll_unbounded_iff (c : t) (values : list string)
  (maxCardinality : Z) :
  unbounded c = false ->
  unbounded (addAll c (map (fun v => (v, maxCardinality)) values)) = true
  <-> values <> []
      /\ (maxCardinality
          < Z.of_nat
              (StringSet.size
                 (fold_left StringSet.add values (uniqueValues c))))%Z.
Proof.
  revert c. induction values as [| v values IH]; intros c Hb.
  - simpl. split; [congruence | intros [Hne _]; contradiction].
  - cbn [map]. rewrite addAll_cons. cbn [fold_left].
    destruct (unbounded (add c v maxCardinality)) eqn:Hstep.
    + split.
      * intros _. split; [discriminate |].
        pose proof (set_fold_add_size values
                      (StringSet.add (uniqueValues c) v)) as Hmono.
        unfold add in Hstep. rewrite Hb in Hstep. cbn [negb] in Hstep.
        destruct (_ <? _)%Z eqn:Hlt in Hstep;
          [| simpl in Hstep; congruence].
        apply Z.ltb_lt in Hlt. lia.
      * intros _. now apply addAll_unbounded_stays.
    + destruct (add_bounded_inv _ _ _ Hstep) as [_ Hset].
      rewrite (IH _ Hstep), Hset. split.
      * intros [_ Hlt]. split; [discriminate | exact Hlt].
      * intros [_ Hlt]. split; [| exact Hlt].
        intros ->. simpl in Hlt.
        unfold add in Hstep. rewrite Hb in Hstep. cbn [negb] in Hstep.
        destruct (_ <? _)%Z eqn:Hlt' in Hstep;
          [simpl in Hstep; congruence |].
        apply Z.ltb_ge in Hlt'. lia.
Qed.

(** With one ceiling for all the calls, a bounded column ends unbounded
    exactly when some value was added and the number of distinct values,
    those it had included, exceeds the ceiling. *)
Theorem unbounded_iff_distinct_exceed (c : t) (values : list string)
  (maxCardinality : Z) :
  unbounded c = false ->
  unbounded (addAll c (map (fun v => (v, maxCardinality)) values)) = true
  <-> values <> []
      /\ (maxCardinality
          < Z.of_nat
              (StringSet.size
                 (fold_left StringSet.add values (uniqueValues c))))%Z.
Proof.
  exact (addAll_unbounded_iff c values maxCardinality).
Qed.

Lemma unbounded_iff_distinct_exceed_witness :
  unbounded (addAll (new "col")
               (map (fun v => (v, 2%Z)) ["a"; "b"; "a"; "c"]%string)) = true.
Proof.
  apply (unbounded_iff_distinct_exceed (new "col") ["a"; "b"; "a"; "c"]%string
           2%Z eq_refl).
  split; [discriminate | reflexivity].
Defined.

(** A column read from a cache object holds each string of the
    [uniqueValues] array once, and no other; it is a fixed point of
    writing and reading back. *)
Theorem fromJson_normalizes (obj : Js.Record) (c : t) :
  fromJson obj = Js.Return c ->
  NoDup (uniqueValues c)
  /\ (forall v, StringSet.has (uniqueValues c) v = true
                <-> In (Js.Str v) (asArray (Js.get obj "uniqueValues")))
  /\ fromJson (toJSON c) = Js.Return c.
Proof.
  unfold fromJson.
  destruct (negb (String.eqb (Js.typeof (Js.get obj "maxLength")) "number"));
    [discriminate |].
  destruct (negb (String.eqb (Js.typeof (Js.get obj "name")) "string"));
    [discriminate |].
  destruct (negb (String.eqb (Js.typeof (Js.get obj "unbounded")) "boolean"));
    [discriminate |].
  destruct (negb (Js.isArray (Js.get obj "uniqueValues")) || _) eqn:Hbad;
    [discriminate |].
  intros [= <-]. cbn [uniqueValues].
  assert (Hnd : NoDup (StringSet.ofList
                         (map asString (asArray (Js.get obj "uniqueValues")))))
    by (apply set_fold_add_NoDup; constructor).
  split; [exact Hnd |]. split.
  - intros v. unfold StringSet.ofList. rewrite set_fold_add_has.
    apply orb_false_iff in Hbad. destruct Hbad as [_ Hall].
    rewrite some_not_string in Hall. apply negb_false_iff in Hall.
    rewrite forallb_forall in Hall.
    rewrite in_map_iff. split.
    + intros [Hin | [x [Hx Hin]]]; [discriminate |].
      specialize (Hall x Hin). destruct x; try discriminate.
      simpl in Hx. now subst.
    + intros Hin. right. now exists (Js.Str v).
  - now apply toJSON_read_back.
Qed.

Lemma fromJson_normalizes_witness :
  let obj : Js.Record :=
    [("maxLength", Js.Number 1); ("name", Js.Str "col");
     ("unbounded", Js.Bool false);
     ("uniqueValues", Js.Array [Js.Str "a"; Js.Str "b"; Js.Str "a"])]%string in
  let c := {| maxLength := 1; name := "col"; unbounded := false;
              uniqueValues := ["a"; "b"]%string |} in
  NoDup (uniqueValues c) /\ fromJson (toJSON c) = Js.Return c.
Proof.
  intros obj c.
  destruct (fromJson_normalizes obj c eq_refl) as [Hnd [_ Hfix]].
  now split.
Defined.

End Remembering.

(** ** The metadata cache *)

Section CacheFacts.

Import MetadataCache.

Lemma mapThrows_toJSON (columns : list ColumnMetadata.t) :
  Forall (fun c => NoDup (ColumnMetadata.uniqueValues c)) columns ->
  mapThrows columnFromJson
    (map (fun x => Js.Object (ColumnMetadata.toJSON x)) columns)
  = Js.Return columns.
Proof.
  induction 1 as [| c columns Hc _ IH]; [reflexivity |].
  cbn [map mapThrows columnFromJson].
  now rewrite (toJSON_read_back c Hc), IH.
Qed.

(** The columns written are the columns read. *)
Lemma toJSON_fromJson_metadata (m : FileMetadata.t) :
  Forall (fun c => NoDup (ColumnMetadata.uniqueValues c))
    (FileMetadata.columns m) ->
  fromJson (toJSON m) = Js.Return m.
Proof.
  intros Hnd. unfold fromJson, toJSON.
  cbn [Js.get String.eqb Ascii.eqb Bool.eqb Js.isArray negb
         ColumnMetadata.asArray].
  rewrite mapThrows_toJSON by assumption. now destruct m.
Qed.

(** Reading back the serialization of a file's metadata gives the
    metadata, when no column holds a value twice. *)
Theorem cache_roundtrip (m : FileMetadata.t) :
  Forall (fun c => NoDup (ColumnMetadata.uniqueValues c))
    (FileMetadata.columns m) ->
  fromJson (toJSON m) = Js.Return m.
Proof.
  exact (toJSON_fromJson_metadata m).
Qed.

Lemma cache_roundtrip_witness :
  fromJson (toJSON Sample.mixed) = Js.Return Sample.mixed.
Proof.
  apply (cache_roundtrip Sample.mixed).
  repeat constructor; simpl; intuition discriminate.
Defined.

Lemma mapThrows_first_failure {A B : Type} (f : A -> Js.Throws B)
  (good : list A) (bad : A) (rest : list A) (ys : list B) (message : string) :
  mapThrows f good = Js.Return ys ->
  f bad = Js.Throw message ->
  mapThrows f (good ++ bad :: rest) = Js.Throw message.
Proof.
  revert ys. induction good as [| x good IH]; intros ys; simpl.
  - intros _ Hbad. now rewrite Hbad.
  - destruct (f x); [| discriminate].
    destruct (mapThrows f good) as [ys' |]; [| discriminate].
    intros _ Hbad. now rewrite (IH ys' eq_refl Hbad).
Qed.

(** [#fromJson] rejects an object whose [columns] is missing or not an
    array, naming that field; with an array it fails with the error of
    the first column that does not read, whatever follows it, and
    otherwise returns the columns read, in order. *)
Theorem cache_fromJson_errors (obj : Js.Record) :
  (Js.isArray (Js.get obj "columns") = false ->
   fromJson obj = ColumnMetadata.missingOrInvalidField "columns")
  /\ (forall good bad rest columns message,
        Js.get obj "columns" = Js.Array (good ++ bad :: rest) ->
        mapThrows columnFromJson good = Js.Return columns ->
        columnFromJson bad = Js.Throw message ->
        fromJson obj = Js.Throw message)
  /\ (forall items columns,
        Js.get obj "columns" = Js.Array items ->
        mapThrows columnFromJson items = Js.Return columns ->
        fromJson obj = Js.Return {| FileMetadata.columns := columns |}).
Proof.
  unfold fromJson. split; [| split].
  - intros Hna. now rewrite Hna.
  - intros good bad rest columns message Hcols Hgood Hbad.
    rewrite Hcols. cbn [Js.isArray negb ColumnMetadata.asArray].
    now rewrite (mapThrows_first_failure _ _ _ _ _ _ Hgood Hbad).
  - intros items columns Hcols Hitems.
    rewrite Hcols. cbn [Js.isArray negb ColumnMetadata.asArray].
    now rewrite Hitems.
Qed.

Lemma cache_fromJson_errors_witness :
  let valid : Js.Value :=
    Js.Object [("maxLength", Js.Number 0); ("name", Js.Str "a");
               ("unbounded", Js.Bool true);
               ("uniqueValues", Js.Array [])]%string in
  let noName : Js.Value :=
    Js.Object [("maxLength", Js.Number 0)]%string in
  fromJson [("columns"%string, Js.Str "none")]
  = ColumnMetadata.missingOrInvalidField "columns"
  /\ fromJson [("columns"%string, Js.Array [valid; noName; Js.Null])]
     = ColumnMetadata.missingOrInvalidField "name".
Proof.
  intros valid noName. split.
  - apply (proj1 (cache_fromJson_errors [("columns"%string, Js.Str "none")])).
    reflexivity.
  - apply (proj1 (proj2 (cache_fromJson_errors
                           [("columns"%string,
                              Js.Array [valid; noName; Js.Null])]))
             [valid] noName [Js.Null]
             [{| ColumnMetadata.maxLength := 0; ColumnMetadata.name := "a";
                 ColumnMetadata.unbounded := true;
                 ColumnMetadata.uniqueValues := [] |}]);
      reflexivity.
Defined.

End CacheFacts.

(** ** The statistics pass *)

Section StatisticsFacts.

Import Statistics.

Variable delimiter : string.
Variable maxCardinality : Z.

Lemma add_name (c : ColumnMetadata.t) (value : string) (m : Z) :
  ColumnMetadata.name (ColumnMetadata.add c value m) = ColumnMetadata.name c.
Proof.
  unfold ColumnMetadata.add.
  destruct (negb _); [destruct (_ <? _)%Z |]; reflexivity.
Qed.

Lemma addEach_length (columns : list ColumnMetadata.t) (colData : list string) :
  length colData = length columns ->
  length (addEach maxCardinality columns colData) = length columns.
Proof.
  intros Hlen. unfold addEach. rewrite length_map, length_combine. lia.
Qed.

Lemma addEach_names (columns : list ColumnMetadata.t) :
  forall colData,
    length colData = length columns ->
    map ColumnMetadata.name (addEach maxCardinality columns colData)
    = map ColumnMetadata.name columns.
Proof.
  induction columns as [| c columns IH]; intros [| v colData] Hlen;
    try discriminate; [reflexivity |].
  unfold addEach in *. simpl. rewrite add_name. f_equal.
  apply IH. simpl in Hlen. lia.
Qed.

Lemma addEach_Reachable (columns : list ColumnMetadata.t) :
  forall colData,
    Forall ColumnMetadata.Reachable columns ->
    Forall ColumnMetadata.Reachable (addEach maxCardinality columns colData).
Proof.
  induction columns as [| c columns IH]; intros colData Hall;
    [constructor |].
  inversion Hall; subst. destruct colData as [| v colData]; [constructor |].
  unfold addEach in *. simpl. constructor.
  - now constructor.
  - now apply IH.
Qed.

(** Once the columns exist, the loop keeps their number and their names,
    and every column stays one that [add] calls build from a new one. *)
Lemma processLines_Some (lines : list string) :
  forall columns,
    exists columns',
      processLines delimiter maxCardinality (Some columns) lines
      = Some columns'
      /\ length columns' = length columns
      /\ map ColumnMetadata.name columns' = map ColumnMetadata.name columns
      /\ (Forall ColumnMetadata.Reachable columns ->
          Forall ColumnMetadata.Reachable columns').
Proof.
  induction lines as [| line lines IH]; intros columns.
  - exists columns. now repeat split.
  - unfold processLines in *. cbn [fold_left processLine].
    destruct (length (Js.split line delimiter) =? length columns) eqn:Hlen.
    + apply Nat.eqb_eq in Hlen.
      destruct (IH (addEach maxCardinality columns (Js.split line delimiter)))
        as [columns' [Hrun [Hcount [Hnames Hreach]]]].
      exists columns'. split; [exact Hrun |].
      rewrite Hcount, Hnames, addEach_length, addEach_names by assumption.
      repeat split. intros Hall. now apply Hreach, addEach_Reachable.
    + apply IH.
Qed.

Lemma new_Reachable (names : list string) :
  Forall ColumnMetadata.Reachable (map ColumnMetadata.new names).
Proof.
  induction names; constructor; [constructor | assumption].
Qed.

Lemma initialColumns_Reachable (numberOfColumns : option Z)
  (columns : list ColumnMetadata.t) :
  initialColumns numberOfColumns = Some columns ->
  Forall ColumnMetadata.Reachable columns.
Proof.
  unfold initialColumns. destruct numberOfColumns as [n |]; [| discriminate].
  destruct (n =? 0)%Z; [discriminate |]. intros [= <-].
  rewrite <- (map_map colName ColumnMetadata.new). apply new_Reachable.
Qed.

(** The columns of a freshly computed metadata are fixed before any
    value is counted. With a non-zero [numberOfColumns] there are that
    many (none when it is negative), named [col_1], [col_2], ..., and
    every line is data. Without it, or when it is [0], the fields of the
    first line name the columns and the first line is not data; a file
    without lines then has no column. *)
Theorem create_columns_fixed (numberOfColumns : option Z)
  (lines : list string) :
  (forall n, numberOfColumns = Some n -> n <> 0%Z ->
             map ColumnMetadata.name
               (FileMetadata.columns
                  (create None delimiter maxCardinality numberOfColumns lines))
             = map colName (seq 1 (Z.to_nat n)))
  /\ (forall header data,
        numberOfColumns = None \/ numberOfColumns = Some 0%Z ->
        lines = header :: data ->
        map ColumnMetadata.name
          (FileMetadata.columns
             (create None delimiter maxCardinality numberOfColumns lines))
        = Js.split header delimiter)
  /\ (numberOfColumns = None \/ numberOfColumns = Some 0%Z ->
      lines = [] ->
      FileMetadata.columns
        (create None delimiter maxCardinality numberOfColumns lines) = []).
Proof.
  split; [| split].
  - intros n -> Hn. unfold create, initialColumns.
    apply Z.eqb_neq in Hn. rewrite Hn. cbn [FileMetadata.columns].
    destruct (processLines_Some lines
                (map (fun i => ColumnMetadata.new (colName i))
                   (seq 1 (Z.to_nat n))))
      as [columns' [-> [_ [Hnames _]]]].
    rewrite Hnames, map_map. reflexivity.
  - intros header data Hauto ->.
    assert (Hinit : initialColumns numberOfColumns = None)
      by (destruct Hauto as [-> | ->]; reflexivity).
    unfold create. rewrite Hinit. cbn [FileMetadata.columns].
    unfold processLines. cbn [fold_left processLine].
    destruct (processLines_Some data
                (map ColumnMetadata.new (Js.split header delimiter)))
      as [columns' [Hrun [_ [Hnames _]]]].
    unfold processLines in Hrun. rewrite Hrun, Hnames, map_map.
    apply map_id.
  - intros Hauto ->.
    assert (Hinit : initialColumns numberOfColumns = None)
      by (destruct Hauto as [-> | ->]; reflexivity).
    unfold create. now rewrite Hinit.
Qed.

End StatisticsFacts.

Lemma create_columns_fixed_witness :
  map ColumnMetadata.name
    (FileMetadata.columns
       (Statistics.create None "|"%string 3 (Some 2%Z) ["name|side"; "Luke|Light"]%string))
  = ["col_1"; "col_2"]%string
  /\ map ColumnMetadata.name
       (FileMetadata.columns
          (Statistics.create None "|"%string 3 None ["name|side"; "Luke|Light"]%string))
     = ["name"; "side"]%string.
Proof.
  split.
  - apply (proj1 (create_columns_fixed "|"%string 3 (Some 2%Z)
                    ["name|side"; "Luke|Light"]%string) 2%Z eq_refl).
    discriminate.
  - apply (proj1 (proj2 (create_columns_fixed "|"%string 3 None
                           ["name|side"; "Luke|Light"]%string))
             "name|side"%string ["Luke|Light"%string]);
      [now left | reflexivity].
Defined.

Section StatisticsRobustness.

Import Statistics.

Variable delimiter : string.
Variable maxCardinality : Z.

Lemma processLines_filter (lines : list string) :
  forall columns,
    processLines delimiter maxCardinality (Some columns) lines
    = processLines delimiter maxCardinality (Some columns)
        (filter (fun line =>
                   length (Js.split line delimiter) =? length columns)
           lines).
Proof.
  induction lines as [| line lines IH]; intros columns; [reflexivity |].
  unfold processLines in *. cbn [fold_left filter processLine].
  destruct (length (Js.split line delimiter) =? length columns) eqn:Hlen.
  - cbn [fold_left processLine]. rewrite Hlen.
    rewrite IH. apply Nat.eqb_eq in Hlen.
    now rewrite addEach_length.
  - apply IH.
Qed.

(** Lines that do not split into as many fields as there are columns
    leave no trace in the statistics: the metadata computed from a file
    is the one computed from its well-formed lines alone. *)
Theorem create_ignores_malformed_lines (numberOfColumns : option Z) :
  (forall n lines,
      numberOfColumns = Some n -> n <> 0%Z ->
      create None delimiter maxCardinality numberOfColumns lines
      = create None delimiter maxCardinality numberOfColumns
          (filter (fun line =>
                     length (Js.split line delimiter) =? Z.to_nat n)
             lines))
  /\ (forall header data,
        numberOfColumns = None \/ numberOfColumns = Some 0%Z ->
        create None delimiter maxCardinality numberOfColumns (header :: data)
        = create None delimiter maxCardinality numberOfColumns
            (header
               :: filter (fun line =>
                            length (Js.split line delimiter)
                            =? length (Js.split header delimiter))
                    data)).
Proof.
  split.
  - intros n lines -> Hn. unfold create, initialColumns.
    apply Z.eqb_neq in Hn. rewrite Hn.
    rewrite processLines_filter. now rewrite length_map, length_seq.
  - intros header data Hauto.
    assert (Hinit : initialColumns numberOfColumns = None)
      by (destruct Hauto as [-> | ->]; reflexivity).
    unfold create. rewrite Hinit. f_equal.
    change (processLines delimiter maxCardinality None (header :: data))
      with (processLines delimiter maxCardinality
              (Some (map ColumnMetadata.new (Js.split header delimiter)))
              data).
    rewrite processLines_filter. now rewrite length_map.
Qed.

(** The metadata computed from a file survives the cache: reading back
    its serialization gives it again, and a call of [create] that finds
    it cached returns it, whatever the other arguments are. *)
Theorem create_survives_cache (numberOfColumns : option Z)
  (lines : list string) :
  let m := create None delimiter maxCardinality numberOfColumns lines in
  MetadataCache.fromJson (MetadataCache.toJSON m) = Js.Return m
  /\ forall delimiter' maxCardinality' numberOfColumns' lines',
       create (Some m) delimiter' maxCardinality' numberOfColumns' lines' = m.
Proof.
  intros m. split; [| reflexivity].
  apply toJSON_fromJson_metadata.
  assert (Hreach : Forall ColumnMetadata.Reachable (FileMetadata.columns m)).
  { subst m. unfold create. cbn [FileMetadata.columns].
    destruct (initialColumns numberOfColumns) as [columns |] eqn:Hinit.
    - destruct (processLines_Some delimiter maxCardinality lines columns)
        as [columns' [-> [_ [_ Hreach]]]].
      apply Hreach. now apply initialColumns_Reachable in Hinit.
    - destruct lines as [| header data]; [constructor |].
      change (processLines delimiter maxCardinality None (header :: data))
        with (processLines delimiter maxCardinality
                (Some (map ColumnMetadata.new (Js.split header delimiter)))
                data).
      destruct (processLines_Some delimiter maxCardinality data
                  (map ColumnMetadata.new (Js.split header delimiter)))
        as [columns' [-> [_ [_ Hreach]]]].
      apply Hreach, new_Reachable. }
  eapply Forall_impl; [| exact Hreach].
  intros c. apply Reachable_NoDup.
Qed.

End StatisticsRobustness.

Lemma create_ignores_malformed_lines_witness :
  Statistics.create None "|"%string 3 (Some 2%Z)
    ["Luke|Light"; "Darth|Vader|Dark"; "Yoda|Light"]%string
  = Statistics.create None "|"%string 3 (Some 2%Z)
      ["Luke|Light"; "Yoda|Light"]%string
  /\ Statistics.create None "|"%string 3 None
       ["name|side"; "Luke"; "Yoda|Light"]%string
     = Statistics.create None "|"%string 3 None
         ["name|side"; "Yoda|Light"]%string.
Proof.
  split.
  - apply (proj1 (create_ignores_malformed_lines "|"%string 3 (Some 2%Z))
             2%Z ["Luke|Light"; "Darth|Vader|Dark"; "Yoda|Light"]%string
             eq_refl).
    discriminate.
  - apply (proj2 (create_ignores_malformed_lines "|"%string 3 None)
             "name|side"%string ["Luke"; "Yoda|Light"]%string).
    now left.
Defined.

(** ** Lines that align *)

Section ArrayContents.

Lemma string_append_assoc (a b c : string) :
  ((a ++ b) ++ c = a ++ (b ++ c))%string.
Proof.
  induction a as [| x a IH]; simpl; [reflexivity | now rewrite IH].
Qed.

Lemma index_middle (before : list string) (x : string) (after : list string) :
  Js.index (before ++ x :: after) (length before) = Some x.
Proof.
  unfold Js.index. rewrite nth_error_app2 by lia.
  now rewrite Nat.sub_diag.
Qed.

Lemma assign_at_length (a : list Js.Elem) (v : Js.Elem) :
  Js.assign a (length a) v = a ++ [v].
Proof.
  unfold Js.assign. rewrite Nat.ltb_irrefl, Nat.sub_diag. reflexivity.
Qed.

Lemma appendToLast_snoc (init : list Js.Elem) (s t : string) :
  Js.appendToLast (init ++ [Some s]) t = init ++ [Some (s ++ t)%string].
Proof.
  unfold Js.appendToLast. rewrite length_app, Nat.add_1_r.
  unfold Js.at_, Js.assign.
  rewrite nth_error_app2, Nat.sub_diag by lia. cbn [nth_error Js.toStr].
  replace (length init <? length (init ++ [Some s])) with true
    by (symmetry; apply Nat.ltb_lt; rewrite length_app; simpl; lia).
  rewrite firstn_app, Nat.sub_diag, firstn_all, firstn_O, app_nil_r.
  rewrite skipn_all2 by (rewrite length_app; simpl; lia).
  reflexivity.
Qed.

Lemma concat_absorb (sep s t : string) (rest : list string) :
  String.concat sep ((s ++ t)%string :: rest)
  = (s ++ String.concat sep (t :: rest))%string.
Proof.
  destruct rest as [| r rest]; [reflexivity |].
  cbn [String.concat]. apply string_append_assoc.
Qed.

Lemma fold_append_concat (sep : string) (extra : list string) :
  forall s,
    fold_left (fun acc field => (acc ++ (sep ++ field))%string) extra s
    = String.concat sep (s :: extra).
Proof.
  induction extra as [| e extra IH]; intros s; [reflexivity |].
  cbn [fold_left]. rewrite IH, concat_absorb.
  rewrite concat_absorb. reflexivity.
Qed.

End ArrayContents.

Section AlignedLines.

Import LineParser.

Variable sep : string.
Variable cols : list string.

Lemma pushPrevious_exact (fields : list string) :
  forall done after r,
    cols = done ++ fields ++ after ->
    pushPrevious cols (length fields)
      {| result := r; colIndex := length done |}
    = {| result := r ++ map Some fields;
         colIndex := length done + length fields |}.
Proof.
  induction fields as [| f fields IH]; intros done after r Hcols.
  - simpl. now rewrite app_nil_r, Nat.add_0_r.
  - cbn [length pushPrevious result colIndex].
    assert (Hat : Js.index cols (length done) = Some f)
      by (rewrite Hcols; apply index_middle).
    rewrite Hat.
    replace (S (length done)) with (length (done ++ [f]))
      by (rewrite length_app; simpl; lia).
    rewrite (IH (done ++ [f]) after).
    + unfold Js.push. rewrite <- app_assoc. cbn [app map].
      f_equal. rewrite length_app. simpl. lia.
    + rewrite Hcols, <- app_assoc. reflexivity.
Qed.

Lemma mergeRest_exact (extra : list string) :
  forall done init s,
    cols = done ++ extra ->
    mergeRest sep cols (length extra)
      {| result := init ++ [Some s]; colIndex := length done |}
    = {| result := init ++ [Some (String.concat sep (s :: extra))];
         colIndex := length cols |}.
Proof.
  induction extra as [| e extra IH]; intros done init s Hcols.
  - simpl. rewrite Hcols, app_nil_r. reflexivity.
  - cbn [length mergeRest result colIndex].
    assert (Hat : Js.index cols (length done) = Some e)
      by (rewrite Hcols; apply index_middle).
    rewrite Hat. cbn [Js.toStr].
    rewrite appendToLast_snoc.
    replace (S (length done)) with (length (done ++ [e]))
      by (rewrite length_app; simpl; lia).
    rewrite (IH (done ++ [e]));
      [| rewrite Hcols, <- app_assoc; reflexivity].
    now rewrite !concat_absorb.
Qed.

(** A bounded anchor whose value stands right after its free-text
    fields consumes exactly those fields and the value. *)
Lemma anchorStep_bounded_exact (anchor : AnchorColumn.t)
  (md : ColumnMetadata.t) (done fields : list string) (v : string)
  (after : list string) :
  cols = done ++ fields ++ v :: after ->
  AnchorColumn.metadata anchor = Some md ->
  AnchorColumn.previousColumns anchor = length fields ->
  ColumnMetadata.unbounded md = false ->
  StringSet.has (ColumnMetadata.uniqueValues md) v = true ->
  anchorStep sep cols anchor
    {| result := map Some done; colIndex := length done |}
  = Some {| result := map Some (done ++ fields ++ [v]);
            colIndex := length (done ++ fields ++ [v]) |}.
Proof.
  intros Hcols Hmd Hprev Hb Hhas. unfold anchorStep.
  rewrite Hprev, Hmd, Hb. cbn [colIndex].
  replace (length cols <? length done + length fields) with false
    by (symmetry; apply Nat.ltb_ge; rewrite Hcols, !length_app; simpl; lia).
  rewrite (pushPrevious_exact fields done (v :: after) _ Hcols).
  cbn [colIndex result].
  assert (Hat : Js.index cols (length done + length fields + 0) = Some v).
  { rewrite Nat.add_0_r, <- length_app, Hcols, app_assoc.
    apply index_middle. }
  rewrite scan_unfold, Hat. cbn [StringSet.hasElem]. rewrite Hhas.
  cbn [Nat.ltb Nat.leb andb mergeExtra]. rewrite Hat.
  f_equal. f_equal.
  - replace (length done + length fields)
      with (length (map Some done ++ map Some fields))
      by (rewrite length_app, !length_map; reflexivity).
    rewrite assign_at_length, !map_app, <- app_assoc. reflexivity.
  - rewrite !length_app. simpl. lia.
Qed.

(** The final anchor without a column, given exactly its free-text
    fields, consumes them. *)
Lemma anchorStep_final_exact (anchor : AnchorColumn.t)
  (done fields : list string) :
  cols = done ++ fields ->
  AnchorColumn.metadata anchor = None ->
  AnchorColumn.previousColumns anchor = length fields ->
  anchorStep sep cols anchor
    {| result := map Some done; colIndex := length done |}
  = Some {| result := map Some cols; colIndex := length cols |}.
Proof.
  intros Hcols Hmd Hprev. unfold anchorStep.
  rewrite Hprev, Hmd. cbn [colIndex].
  replace (length cols <? length done + length fields) with false
    by (symmetry; apply Nat.ltb_ge; rewrite Hcols, !length_app; lia).
  rewrite (pushPrevious_exact fields done [] _);
    [| now rewrite app_nil_r].
  cbn [colIndex].
  replace (length cols - (length done + length fields)) with 0
    by (rewrite Hcols, length_app; lia).
  cbn [mergeRest]. rewrite Hcols, map_app, length_app. reflexivity.
Qed.

Lemma forEachAnchor_exact (rest : list ColumnMetadata.t) (previous : nat) :
  forall done fields values,
    cols = done ++ fields ++ values ->
    length fields = previous ->
    Forall2 Fields.fits rest values ->
    (rest = [] -> previous = 0) ->
    forEachAnchor sep cols (AnchorColumn.loop rest previous [])
      {| result := map Some done; colIndex := length done |}
    = Some {| result := map Some cols; colIndex := length cols |}.
Proof.
  apply (loop_ind_cases
           (fun rest previous anchors =>
              forall done fields values,
                cols = done ++ fields ++ values ->
                length fields = previous ->
                Forall2 Fields.fits rest values ->
                (rest = [] -> previous = 0) ->
                forEachAnchor sep cols anchors
                  {| result := map Some done; colIndex := length done |}
                = Some {| result := map Some cols;
                          colIndex := length cols |})).
  - intros p done fields values Hcols Hlen Hfit Hzero.
    revert Hcols. inversion Hfit; subst values. intros Hcols.
    specialize (Hzero eq_refl). subst p.
    destruct fields; [| discriminate].
    cbn [forEachAnchor]. rewrite Hcols, !app_nil_r. reflexivity.
  - intros column rest' p Hb IH done fields values Hcols Hlen Hfit _.
    revert Hcols. inversion Hfit as [| ? v ? vs Hv Hvs]; subst.
    intros Hcols. cbn [forEachAnchor].
    rewrite (anchorStep_bounded_exact
               {| AnchorColumn.previousColumns := length fields;
                  AnchorColumn.metadata := Some column |}
               column done fields v vs Hcols eq_refl eq_refl Hb (Hv Hb)).
    apply (IH (done ++ fields ++ [v]) [] vs); auto.
    rewrite Hcols, <- !app_assoc. reflexivity.
  - intros column p Hu done fields values Hcols Hlen Hfit _.
    revert Hcols. inversion Hfit as [| ? v ? vs Hv Hvs]; subst.
    inversion Hvs; subst. intros Hcols. cbn [forEachAnchor].
    rewrite (anchorStep_final_exact
               {| AnchorColumn.previousColumns := S (length fields);
                  AnchorColumn.metadata := None |}
               done (fields ++ [v]));
      [reflexivity | exact Hcols | reflexivity |].
    cbn [AnchorColumn.previousColumns]. rewrite length_app. simpl. lia.
  - intros column next rest' p Hu IH done fields values Hcols Hlen Hfit _.
    revert Hcols. inversion Hfit as [| ? v ? vs Hv Hvs]; subst.
    intros Hcols. apply (IH done (fields ++ [v]) vs).
    + rewrite Hcols, <- app_assoc. reflexivity.
    + rewrite length_app. simpl. lia.
    + exact Hvs.
    + discriminate.
Qed.

(** Fields that fit their columns, one by one, are the row. *)
Lemma tryParseColumns_fitting (metadata : FileMetadata.t) :
  Forall2 Fields.fits (FileMetadata.columns metadata) cols ->
  tryParseColumns sep cols metadata = Some (map Some cols).
Proof.
  intros Hfit. unfold tryParseColumns.
  rewrite (Forall2_length Hfit), Nat.ltb_irrefl.
  unfold FileMetadata.anchorColumns, AnchorColumn.getAnchorColumns.
  change {| result := []; colIndex := 0 |}
    with {| result := map Some (@nil string);
            colIndex := length (@nil string) |}.
  rewrite (forEachAnchor_exact (FileMetadata.columns metadata) 0 [] [] cols);
    auto.
  cbn [colIndex result]. now rewrite Nat.ltb_irrefl.
Qed.

(** A line with one field per column, whose field under each bounded
    column is one of the column's values, aligns to its own fields: no
    field is merged, moved or dropped. *)
Theorem well_formed_line_aligns_to_itself (metadata : FileMetadata.t) :
  Forall2 Fields.fits (FileMetadata.columns metadata) cols ->
  tryParseColumns sep cols metadata = Some (map Some cols).
Proof.
  exact (tryParseColumns_fitting metadata).
Qed.

End AlignedLines.

Lemma well_formed_line_aligns_to_itself_witness :
  LineParser.tryParseColumns " "
    ["val-6"; "val-7"; "col-3-val-1"; "val-8"; "val-9"]%string Sample.mixed
  = Some (map Some ["val-6"; "val-7"; "col-3-val-1"; "val-8"; "val-9"]%string).
Proof.
  apply (well_formed_line_aligns_to_itself " "
           ["val-6"; "val-7"; "col-3-val-1"; "val-8"; "val-9"]%string
           Sample.mixed).
  repeat constructor; intros Hb; solve [discriminate Hb | reflexivity].
Defined.

Section FreeTextOnly.

Import LineParser.

Variable sep : string.

(** When every column is free text, a line with at least as many fields
    as columns always aligns: the fields before the last column are kept
    as they are and all the remaining fields are joined with the merge
    separator into the last column, in order, none of them lost. *)
Theorem free_text_columns_merge_rightward (metadata : FileMetadata.t)
  (first : list string) (last : string) (extra : list string) :
  Forall (fun c => ColumnMetadata.unbounded c = true)
    (FileMetadata.columns metadata) ->
  length (FileMetadata.columns metadata) = S (length first) ->
  tryParseColumns sep (first ++ last :: extra) metadata
  = Some (map Some first ++ [Some (String.concat sep (last :: extra))]).
Proof.
  intros Hfree Hcount. unfold tryParseColumns.
  replace (length (first ++ last :: extra)
           <? length (FileMetadata.columns metadata)) with false
    by (symmetry; apply Nat.ltb_ge; rewrite Hcount, length_app; simpl; lia).
  unfold FileMetadata.anchorColumns, AnchorColumn.getAnchorColumns.
  rewrite loop_all_unbounded;
    [| intros Hnil; rewrite Hnil in Hcount; discriminate | assumption].
  rewrite Hcount. cbn [forEachAnchor Nat.add]. unfold anchorStep.
  cbn [AnchorColumn.previousColumns AnchorColumn.metadata colIndex Nat.add].
  replace (length (first ++ last :: extra) <? S (length first)) with false
    by (symmetry; apply Nat.ltb_ge; rewrite length_app; simpl; lia).
  replace (S (length first)) with (length (first ++ [last]))
    by (rewrite length_app; simpl; lia).
  change {| result := []; colIndex := 0 |}
    with {| result := []; colIndex := length (@nil string) |}.
  rewrite (pushPrevious_exact (first ++ last :: extra) (first ++ [last])
             [] extra []);
    [| rewrite <- app_assoc; reflexivity].
  cbn [colIndex app length Nat.add].
  replace (length (first ++ last :: extra) - length (first ++ [last]))
    with (length extra) by (rewrite !length_app; simpl; lia).
  rewrite map_app. cbn [map].
  rewrite (mergeRest_exact sep (first ++ last :: extra) extra
             (first ++ [last]) (map Some first) last);
    [| rewrite <- app_assoc; reflexivity].
  cbn [colIndex result]. now rewrite Nat.ltb_irrefl.
Qed.

End FreeTextOnly.

Lemma free_text_columns_merge_rightward_witness :
  LineParser.tryParseColumns " "
    (["val-1"%string; "val-2"%string]
       ++ "val-3"%string :: ["val-4"%string; "val-5"%string])
    {| FileMetadata.columns := [Sample.free; Sample.free; Sample.free] |}
  = Some [Some "val-1"; Some "val-2"; Some "val-3 val-4 val-5"]%string.
Proof.
  apply (free_text_columns_merge_rightward " "
           {| FileMetadata.columns := [Sample.free; Sample.free; Sample.free] |}
           ["val-1"; "val-2"]%string "val-3"%string
           ["val-4"; "val-5"]%string).
  - repeat constructor.
  - reflexivity.
Defined.

Section BoundedOnly.

Import LineParser.

Variable sep : string.
Variable cols : list string.

Lemma index_at_split (done rest : list string) (v : string) :
  cols = done ++ rest ->
  Js.index cols (length done) = Some v ->
  exists after, rest = v :: after.
Proof.
  intros Hcols. rewrite Hcols. unfold Js.index.
  rewrite nth_error_app2, Nat.sub_diag by lia.
  destruct rest as [| x after]; [discriminate |].
  intros [= ->]. now exists after.
Qed.

Lemma forEachAnchor_all_bounded (columns : list ColumnMetadata.t) :
  Forall (fun c => ColumnMetadata.unbounded c = false) columns ->
  forall done rest c',
    cols = done ++ rest ->
    forEachAnchor sep cols
      (map (fun c => {| AnchorColumn.previousColumns := 0;
                        AnchorColumn.metadata := Some c |}) columns)
      {| result := map Some done; colIndex := length done |} = Some c' ->
    exists used after,
      rest = used ++ after
      /\ Forall2 (fun c v =>
                    StringSet.has (ColumnMetadata.uniqueValues c) v = true)
           columns used
      /\ c' = {| result := map Some (done ++ used);
                 colIndex := length (done ++ used) |}.
Proof.
  induction 1 as [| column columns Hb _ IH]; intros done rest c' Hcols.
  - cbn [map forEachAnchor]. intros [= <-]. exists [], rest.
    rewrite app_nil_r. repeat split. constructor.
  - cbn [map forEachAnchor].
    destruct (StringSet.hasElem (ColumnMetadata.uniqueValues column)
                (Js.index cols (length done))) eqn:Hhas.
    + destruct (Js.index cols (length done)) as [v |] eqn:Hat;
        [| discriminate].
      cbn [StringSet.hasElem] in Hhas.
      destruct (index_at_split done rest v Hcols Hat) as [after ->].
      rewrite (anchorStep_bounded_exact sep cols
                 {| AnchorColumn.previousColumns := 0;
                    AnchorColumn.metadata := Some column |}
                 column done [] v after Hcols eq_refl eq_refl Hb Hhas).
      cbn [app]. intros Hrest.
      destruct (IH (done ++ [v]) after c') as [used [after' [-> [Hfit ->]]]].
      * rewrite Hcols, <- app_assoc. reflexivity.
      * exact Hrest.
      * exists (v :: used), after'. split; [reflexivity |].
        split; [now constructor |].
        rewrite <- app_assoc. reflexivity.
    + rewrite (anchorStep_noise_nowhere sep cols
                 {| AnchorColumn.previousColumns := 0;
                    AnchorColumn.metadata := Some column |}
                 column
                 {| result := map Some done; colIndex := length done |}
                 eq_refl Hb eq_refl Hhas).
      discriminate.
Qed.

(** When every column is bounded, a line aligns exactly when it has one
    field per column and each field is a value of its column; the row
    is then the fields themselves. No line with a surplus field ever
    aligns, and nothing is ever merged. *)
Theorem bounded_columns_align_exactly (metadata : FileMetadata.t)
  (row : list Js.Elem) :
  Forall (fun c => ColumnMetadata.unbounded c = false)
    (FileMetadata.columns metadata) ->
  tryParseColumns sep cols metadata = Some row
  <-> Forall2 (fun c v =>
                 StringSet.has (ColumnMetadata.uniqueValues c) v = true)
        (FileMetadata.columns metadata) cols
      /\ row = map Some cols.
Proof.
  intros Hb. split.
  - unfold tryParseColumns.
    destruct (_ <? _); [discriminate |].
    unfold FileMetadata.anchorColumns, AnchorColumn.getAnchorColumns.
    rewrite loop_all_bounded by assumption.
    change {| result := []; colIndex := 0 |}
      with {| result := map Some (@nil string);
              colIndex := length (@nil string) |}.
    destruct (forEachAnchor sep cols _ _) as [c' |] eqn:Hloop;
      [| discriminate].
    destruct (forEachAnchor_all_bounded _ Hb [] cols c' eq_refl Hloop)
      as [used [after [Hcols [Hfit ->]]]].
    cbn [app colIndex result].
    destruct (length used <? length cols) eqn:Hleft; [discriminate |].
    apply Nat.ltb_ge in Hleft. intros [= <-].
    assert (Hafter : after = []).
    { rewrite Hcols, length_app in Hleft.
      destruct after; [reflexivity | simpl in Hleft; lia]. }
    rewrite Hafter, app_nil_r in Hcols. subst used. now split.
  - intros [Hfit ->]. apply tryParseColumns_fitting.
    eapply Forall2_impl; [| exact Hfit].
    intros c v Hhas _. exact Hhas.
Qed.

End BoundedOnly.

Lemma bounded_columns_align_exactly_witness :
  LineParser.tryParseColumns " " ["a"; "b"]%string
    {| FileMetadata.columns :=
         [Sample.bounded ["a"%string]; Sample.bounded ["b"%string]] |}
  = Some [Some "a"; Some "b"]%string.
Proof.
  apply (bounded_columns_align_exactly " " ["a"; "b"]%string
           {| FileMetadata.columns :=
                [Sample.bounded ["a"%string]; Sample.bounded ["b"%string]] |}
           [Some "a"; Some "b"]%string).
  - repeat constructor.
  - split; [repeat constructor | reflexivity].
Defined.

Section AnchorsAndColumns.

Import AnchorColumn.

(** The anchors that carry a column carry the bounded columns, each
    once, in the order of the columns; and there is no anchor only when
    there is no column. *)
Theorem anchors_carry_bounded_columns (columns : list ColumnMetadata.t) :
  flat_map (fun a => match metadata a with
                     | Some md => [md]
                     | None => []
                     end) (getAnchorColumns columns)
  = filter (fun c => negb (ColumnMetadata.unbounded c)) columns
  /\ (getAnchorColumns columns = [] <-> columns = []).
Proof.
  unfold getAnchorColumns. split.
  - apply (loop_ind_cases
             (fun rest _ anchors =>
                flat_map (fun a => match metadata a with
                                   | Some md => [md]
                                   | None => []
                                   end) anchors
                = filter (fun c => negb (ColumnMetadata.unbounded c)) rest)).
    + reflexivity.
    + intros column rest p Hb IH. cbn [flat_map metadata filter app].
      rewrite Hb. cbn [negb]. now rewrite IH.
    + intros column p Hu. cbn [flat_map metadata filter app].
      now rewrite Hu.
    + intros column next rest p Hu IH. rewrite IH.
      cbn [filter]. now rewrite Hu.
  - split; [| now intros ->].
    apply (loop_ind_cases
             (fun rest _ anchors => anchors = [] -> rest = [])).
    + reflexivity.
    + discriminate.
    + discriminate.
    + intros column next rest p Hu IH Hnil. specialize (IH Hnil).
      discriminate.
Qed.

End AnchorsAndColumns.

(** ** From the statistics pass to the parser *)

Section CountedLines.

Import Statistics.

Variable delimiter : string.
Variable maxCardinality : Z.

Lemma add_fits_new (c : ColumnMetadata.t) (v : string) :
  Fields.fits (ColumnMetadata.add c v maxCardinality) v.
Proof.
  intros Hb. destruct (add_bounded_inv _ _ _ Hb) as [_ ->].
  apply set_add_has_new.
Qed.

Lemma add_fits_old (c : ColumnMetadata.t) (v x : string) :
  Fields.fits c x -> Fields.fits (ColumnMetadata.add c v maxCardinality) x.
Proof.
  intros Hfit Hb. destruct (add_bounded_inv _ _ _ Hb) as [Hb0 ->].
  apply set_add_has_iff. left. now apply Hfit.
Qed.

Lemma addEach_fits_new (columns : list ColumnMetadata.t) :
  forall colData,
    length colData = length columns ->
    Forall2 Fields.fits (addEach maxCardinality columns colData) colData.
Proof.
  induction columns as [| c columns IH]; intros [| v colData] Hlen;
    try discriminate; [constructor |].
  unfold addEach in *. simpl. constructor; [apply add_fits_new |].
  apply IH. simpl in Hlen. lia.
Qed.

Lemma addEach_fits_old (columns : list ColumnMetadata.t) (values : list string) :
  Forall2 Fields.fits columns values ->
  forall colData,
    length colData = length columns ->
    Forall2 Fields.fits (addEach maxCardinality columns colData) values.
Proof.
  induction 1 as [| c x columns values Hfit _ IH]; intros [| v colData] Hlen;
    try discriminate; [constructor |].
  unfold addEach in *. simpl. constructor; [now apply add_fits_old |].
  apply IH. simpl in Hlen. lia.
Qed.

(** What the loop has counted still fits when it ends, and so does every
    line it counts. *)
Lemma processLines_fits (lines : list string) :
  forall columns columns',
    processLines delimiter maxCardinality (Some columns) lines
    = Some columns' ->
    (forall values, Forall2 Fields.fits columns values ->
                    Forall2 Fields.fits columns' values)
    /\ (forall line, In line lines ->
                     length (Js.split line delimiter) = length columns ->
                     Forall2 Fields.fits columns' (Js.split line delimiter)).
Proof.
  induction lines as [| line lines IH]; intros columns columns'.
  - intros [= <-]. split; [auto | intros line []].
  - unfold processLines in *. cbn [fold_left processLine].
    destruct (length (Js.split line delimiter) =? length columns) eqn:Hlen.
    + apply Nat.eqb_eq in Hlen. intros Hrun.
      destruct (IH _ _ Hrun) as [Hold Hnew]. split.
      * intros values Hfit. now apply Hold, addEach_fits_old.
      * intros l [<- | Hin] Hl.
        -- now apply Hold, addEach_fits_new.
        -- apply Hnew; [assumption |]. now rewrite addEach_length.
    + intros Hrun. destruct (IH _ _ Hrun) as [Hold Hnew]. split.
      * exact Hold.
      * intros l [<- | Hin] Hl.
        -- apply Nat.eqb_neq in Hlen. contradiction.
        -- now apply Hnew.
Qed.

(** Every line that the statistics pass counted (a data line with one
    field per column) is aligned by the parser on its own, to its own
    fields, under the metadata computed from the file; the lines pending
    at that moment are handed back as unprocessed. *)
Theorem counted_lines_parse_to_themselves (numberOfColumns : option Z)
  (lines pending : list string) (line sep : string) :
  let m := create None delimiter maxCardinality numberOfColumns lines in
  let data :=
    match initialColumns numberOfColumns with
    | Some _ => lines
    | None => tl lines
    end in
  In line data ->
  length (Js.split line delimiter) = length (FileMetadata.columns m) ->
  LineParser.parse
    {| LineParser.delimiter := delimiter;
       LineParser.metadata := m;
       LineParser.mergeSeparator := sep |} pending line
  = ({| LineParser.columns := Some (map Some (Js.split line delimiter));
        LineParser.unprocessedLines := pending |}, []).
Proof.
  intros m data Hin Hcount.
  assert (Hfit : Forall2 Fields.fits (FileMetadata.columns m)
                   (Js.split line delimiter)).
  { subst m data. unfold create in *. cbn [FileMetadata.columns] in *.
    destruct (initialColumns numberOfColumns) as [columns |] eqn:Hinit.
    - destruct (processLines_Some delimiter maxCardinality lines columns)
        as [columns' [Hrun [Hlen _]]].
      rewrite Hrun in *.
      apply (proj2 (processLines_fits lines columns columns' Hrun));
        [assumption | congruence].
    - destruct lines as [| header rest]; [contradiction |].
      cbn [tl] in Hin.
      change (processLines delimiter maxCardinality None (header :: rest))
        with (processLines delimiter maxCardinality
                (Some (map ColumnMetadata.new (Js.split header delimiter)))
                rest) in *.
      destruct (processLines_Some delimiter maxCardinality rest
                  (map ColumnMetadata.new (Js.split header delimiter)))
        as [columns' [Hrun [Hlen _]]].
      rewrite Hrun in *.
      apply (proj2 (processLines_fits rest _ columns' Hrun));
        [assumption | congruence]. }
  unfold LineParser.parse.
  cbn [LineParser.delimiter LineParser.metadata LineParser.mergeSeparator].
  now rewrite (tryParseColumns_fitting sep _ m Hfit).
Qed.

End CountedLines.

Lemma counted_lines_parse_to_themselves_witness :
  let lines := ["name|side"; "Luke|Light"; "Darth|Vader|Dark";
                "Yoda|Light"; "Maul|Dark"]%string in
  LineParser.parse
    {| LineParser.delimiter := "|";
       LineParser.metadata := Statistics.create None "|"%string 1 None lines;
       LineParser.mergeSeparator := " " |}
    ["Darth|Vader|Dark"%string] "Maul|Dark"
  = ({| LineParser.columns := Some [Some "Maul"; Some "Dark"]%string;
        LineParser.unprocessedLines := ["Darth|Vader|Dark"%string] |}, []).
Proof.
  intros lines.
  apply (counted_lines_parse_to_themselves "|"%string 1 None lines
           ["Darth|Vader|Dark"%string] "Maul|Dark"%string " "%string).
  - simpl. tauto.
  - reflexivity.
Defined.

(** ** Lines are neither invented nor lost *)

Section Conservation.

Import LineParser.

Variable cfg : Config.

Lemma retry_sound (lines : list string) :
  forall n skipCount out lines' row,
    retry cfg lines n skipCount = (out, lines') ->
    columns out = Some row ->
    exists k,
      skipCount <= k < skipCount + n
      /\ attempt cfg lines k = Some row
      /\ (forall j, skipCount <= j < k -> attempt cfg lines j = None)
      /\ unprocessedLines out = firstn k lines.
Proof.
  induction n as [| n IH]; intros skipCount out lines' row; simpl.
  - intros [= <- _]. discriminate.
  - destruct (attempt cfg lines skipCount) as [found |] eqn:Hattempt.
    + intros [= <- _]. cbn [columns unprocessedLines]. intros [= ->].
      exists skipCount. repeat split; try lia. exact Hattempt.
    + intros Hrun Hrow.
      destruct (IH _ _ _ _ Hrun Hrow) as [k [Hk [Hfound [Hfirst Hun]]]].
      exists k. repeat split; try lia; try assumption.
      intros j Hj. destruct (Nat.eq_dec j skipCount) as [-> | Hneq];
        [exact Hattempt | apply Hfirst; lia].
Qed.


(** A row returned by [parse] is the alignment of a suffix of the
    pending lines, the prefix being handed back. *)
Lemma parse_row_sound (lines : list string)
  (line : string) (out : ParseOutput) (lines' : list string)
  (row : list Js.Elem) :
  parse cfg lines line = (out, lines') ->
  columns out = Some row ->
  exists k,
    k <= length lines
    /\ unprocessedLines out = firstn k (lines ++ [line])
    /\ attempt cfg (lines ++ [line]) k = Some row
    /\ lines ++ [line] = unprocessedLines out ++ skipn k (lines ++ [line])
    /\ lines' = [].
Proof.
  unfold parse.
  destruct (tryParseColumns _ _ _) as [found |] eqn:Halone.
  - intros [= <- <-]. cbn [columns unprocessedLines]. intros [= ->].
    exists (length lines).
    rewrite attempt_last_line, firstn_app, firstn_all, Nat.sub_diag.
    cbn [firstn]. rewrite app_nil_r.
    repeat split; try assumption; try lia.
    rewrite skipn_app, skipn_all, Nat.sub_diag. reflexivity.
  - destruct (1 <? length (lines ++ [line])).
    + intros Hrun Hrow.
      destruct (retry_sound _ _ _ _ _ _ Hrun Hrow)
        as [k [Hk [Hfound [_ Hun]]]].
      rewrite length_app in Hk. cbn [length] in Hk.
      exists k. repeat split; try assumption; try lia.
      * rewrite Hun. symmetry. apply firstn_skipn.
      * destruct out as [c u]. cbn [columns] in Hrow. subst c.
        now destruct (proj1 (retry_outcome cfg _ _ _ _ _ Hrun)).
    + intros [= <- _]. discriminate.
Qed.

(** Whenever [parse] returns a row, the pending lines with the new line
    at their end split in two: a prefix handed back as unprocessed and
    the remaining suffix, which ends with the new line and whose merged
    fields align to the row. Every line is thus either unprocessed or
    used, in arrival order, and the buffer is left empty. *)
Theorem parse_row_accounts_for_every_line (lines : list string)
  (line : string) (out : ParseOutput) (lines' : list string)
  (row : list Js.Elem) :
  parse cfg lines line = (out, lines') ->
  columns out = Some row ->
  exists k,
    k <= length lines
    /\ unprocessedLines out = firstn k (lines ++ [line])
    /\ attempt cfg (lines ++ [line]) k = Some row
    /\ lines ++ [line] = unprocessedLines out ++ skipn k (lines ++ [line])
    /\ lines' = [].
Proof.
  exact (parse_row_sound lines line out lines' row).
Qed.

(** Over a run of [parse] calls there is one output per line, every
    line reported as unprocessed is one of the lines received, and the
    lines still pending at the end are the last lines received, in
    order: the buffer is a suffix of what came in. *)
Theorem parseAll_conserves_lines (input : list string) :
  forall lines outs final,
    parseAll cfg lines input = (outs, final) ->
    length outs = length input
    /\ (exists consumed, lines ++ input = consumed ++ final)
    /\ Forall (fun out => incl (unprocessedLines out) (lines ++ input)) outs.
Proof.
  induction input as [| line input IH]; intros lines outs final.
  - cbn [parseAll]. intros [= <- <-]. repeat split.
    + exists []. now rewrite app_nil_r.
    + constructor.
  - cbn [parseAll].
    destruct (parse cfg lines line) as [out lines'] eqn:Hparse.
    destruct (parseAll cfg lines' input) as [outs' final'] eqn:Hrest.
    intros [= <- <-].
    destruct (IH _ _ _ Hrest) as [Hlen [[consumed Hsuffix] Hincl]].
    pose proof (parse_outcome cfg lines line out lines' Hparse)
      as [Hsome Hnone].
    assert (Hstate : lines' = [] \/ lines' = lines ++ [line]).
    { destruct (columns out) eqn:Hcol.
      - left. apply Hsome. discriminate.
      - right. now apply Hnone. }
    assert (Hreported : incl (unprocessedLines out) (lines ++ [line])).
    { destruct (columns out) as [row |] eqn:Hcol.
      - destruct (parse_row_sound lines line out lines' row
                    Hparse Hcol) as [k [_ [_ [_ [Hall _]]]]].
        rewrite Hall. apply incl_appl, incl_refl.
      - destruct (Hnone eq_refl) as [-> _]. intros x []. }
    split; [cbn [length]; now rewrite Hlen |]. split.
    + destruct Hstate as [-> | ->].
      * exists ((lines ++ [line]) ++ consumed).
        cbn [app] in Hsuffix. rewrite <- !app_assoc, <- Hsuffix.
        reflexivity.
      * exists consumed. rewrite <- Hsuffix, <- app_assoc. reflexivity.
    + constructor.
      * intros x Hx. apply Hreported in Hx.
        rewrite in_app_iff in *. simpl in *. tauto.
      * eapply Forall_impl; [| exact Hincl].
        intros o Ho x Hx. apply Ho in Hx.
        destruct Hstate as [-> | ->].
        -- rewrite in_app_iff. right. now right.
        -- rewrite <- app_assoc in Hx. exact Hx.
Qed.

End Conservation.

Lemma parse_row_accounts_for_every_line_witness :
  let cfg := LineParser.defaultConfig "|" Sample.twoBoundedThenFree in
  let pending :=
    ["val-1|val-2"; "col-1-val-1|val-3"; "col-1-val-1|col-2-val-1"]%string in
  exists k,
    k <= 3
    /\ ["val-1|val-2"; "col-1-val-1|val-3"]%string
       = firstn k (pending ++ ["val-4|val-5"%string])
    /\ LineParser.attempt cfg (pending ++ ["val-4|val-5"%string]) k
       = Some [Some "col-1-val-1"; Some "col-2-val-1";
               Some "val-4 val-5"]%string
    /\ pending ++ ["val-4|val-5"%string]
       = ["val-1|val-2"; "col-1-val-1|val-3"]%string
           ++ skipn k (pending ++ ["val-4|val-5"%string])
    /\ @nil string = [].
Proof.
  intros cfg pending.
  exact (parse_row_accounts_for_every_line cfg pending "val-4|val-5"
           {| LineParser.columns :=
                Some [Some "col-1-val-1"; Some "col-2-val-1";
                      Some "val-4 val-5"]%string;
              LineParser.unprocessedLines :=
                ["val-1|val-2"; "col-1-val-1|val-3"]%string |}
           [] _ eq_refl eq_refl).
Defined.

Lemma parseAll_conserves_lines_witness :
  let cfg := LineParser.defaultConfig "|" Sample.mixed in
  let input := ["val-1|val-2|val-3"; "val-4|val-5"]%string in
  length [ {| LineParser.columns := None;
              LineParser.unprocessedLines := [] |};
           {| LineParser.columns := None;
              LineParser.unprocessedLines := [] |} ] = length input
  /\ exists consumed, [] ++ input = consumed ++ input.
Proof.
  intros cfg input.
  destruct (parseAll_conserves_lines cfg input [] _ input eq_refl)
    as [Hlen [Hsuffix _]].
  split; [exact Hlen | exact Hsuffix].
Defined.

(** ** Rows without holes *)

Section CompleteRows.

Import LineParser.

Variable sep : string.
Variable cols : list string.

Lemma Forall_firstn_skipn {A : Type} (P : A -> Prop) (n : nat) (l : list A) :
  Forall P l -> Forall P (firstn n l) /\ Forall P (skipn n l).
Proof.
  intros Hall. rewrite <- (firstn_skipn n l) in Hall.
  now apply Forall_app in Hall.
Qed.

Lemma appendToLast_filled (a : list Js.Elem) (s : string) :
  Forall (fun e => e <> None) a ->
  Forall (fun e => e <> None) (Js.appendToLast a s).
Proof.
  intros Hall. unfold Js.appendToLast.
  destruct (length a) as [| last] eqn:Hlen; [assumption |].
  unfold Js.assign. rewrite Hlen.
  replace (last <? S last) with true by (symmetry; apply Nat.ltb_lt; lia).
  apply Forall_app. split.
  - now apply Forall_firstn_skipn.
  - constructor; [discriminate | now apply Forall_firstn_skipn].
Qed.

Lemma pushPrevious_filled (n : nat) :
  forall c,
    colIndex c + n <= length cols ->
    Forall (fun e => e <> None) (result c) ->
    Forall (fun e => e <> None) (result (pushPrevious cols n c)).
Proof.
  induction n as [| n IH]; intros c Hle Hall; simpl; [assumption |].
  apply IH; simpl; [lia |].
  unfold Js.push. apply Forall_app. split; [assumption |].
  constructor; [| constructor].
  unfold Js.index. apply nth_error_Some. lia.
Qed.

Lemma mergeExtra_length (colIndex n : nat) :
  forall i r, length (mergeExtra sep cols colIndex n i r) = length r.
Proof.
  induction n as [| n IH]; intros i r; simpl; [reflexivity |].
  now rewrite IH, appendToLast_length.
Qed.

Lemma mergeExtra_filled (colIndex n : nat) :
  forall i r,
    Forall (fun e => e <> None) r ->
    Forall (fun e => e <> None) (mergeExtra sep cols colIndex n i r).
Proof.
  induction n as [| n IH]; intros i r Hall; simpl; [assumption |].
  now apply IH, appendToLast_filled.
Qed.

Lemma mergeRest_length (n : nat) :
  forall c, length (result (mergeRest sep cols n c)) = length (result c).
Proof.
  induction n as [| n IH]; intros c; simpl; [reflexivity |].
  rewrite IH. simpl. apply appendToLast_length.
Qed.

Lemma mergeRest_filled (n : nat) :
  forall c,
    Forall (fun e => e <> None) (result c) ->
    Forall (fun e => e <> None) (result (mergeRest sep cols n c)).
Proof.
  induction n as [| n IH]; intros c Hall; simpl; [assumption |].
  apply IH. simpl. now apply appendToLast_filled.
Qed.

(** A bounded anchor reached with as many output values as fields
    consumed adds its free-text values and its own, without a hole. *)
Lemma anchorStep_bounded_complete (anchor : AnchorColumn.t)
  (md : ColumnMetadata.t) (c c' : Cursor) :
  AnchorColumn.metadata anchor = Some md ->
  ColumnMetadata.unbounded md = false ->
  anchorStep sep cols anchor c = Some c' ->
  length (result c) = colIndex c ->
  Forall (fun e => e <> None) (result c) ->
  length (result c')
  = length (result c) + AnchorColumn.previousColumns anchor + 1
  /\ Forall (fun e => e <> None) (result c').
Proof.
  intros Hmd Hb. unfold anchorStep. rewrite Hmd, Hb.
  destruct (_ <? _) eqn:Hroom; [discriminate |].
  apply Nat.ltb_ge in Hroom.
  destruct (scan cols _ _ _ 0) as [extra |] eqn:Hscan; [| discriminate].
  destruct (_ && _); [discriminate |].
  intros [= <-] Hgap Hall. cbn [result].
  apply scan_found in Hscan. destruct Hscan as [Hhas _].
  destruct (Js.index cols _) as [v |] eqn:Hat in Hhas; [| discriminate].
  rewrite Hat.
  pose proof (pushPrevious_colIndex cols
                (AnchorColumn.previousColumns anchor) c) as Hci.
  pose proof (pushPrevious_length cols
                (AnchorColumn.previousColumns anchor) c) as Hlen.
  pose proof (pushPrevious_filled _ c Hroom Hall) as Hfilled.
  set (c1 := pushPrevious cols (AnchorColumn.previousColumns anchor) c) in *.
  set (merged := mergeExtra sep cols (colIndex c1) extra 0 (result c1)).
  assert (Hmerged : length merged = colIndex c1)
    by (subst merged; rewrite mergeExtra_length; lia).
  rewrite <- Hmerged, assign_at_length. split.
  - rewrite length_app. simpl. lia.
  - apply Forall_app. split.
    + subst merged. now apply mergeExtra_filled.
    + constructor; [discriminate | constructor].
Qed.

(** The anchor without a column adds its free-text values, without a
    hole, wherever the output stands. *)
Lemma anchorStep_final_complete (anchor : AnchorColumn.t) (c c' : Cursor) :
  AnchorColumn.metadata anchor = None ->
  anchorStep sep cols anchor c = Some c' ->
  Forall (fun e => e <> None) (result c) ->
  length (result c') = length (result c) + AnchorColumn.previousColumns anchor
  /\ Forall (fun e => e <> None) (result c').
Proof.
  intros Hmd. unfold anchorStep. rewrite Hmd.
  destruct (_ <? _) eqn:Hroom; [discriminate |].
  apply Nat.ltb_ge in Hroom. intros [= <-] Hall. split.
  - now rewrite mergeRest_length, pushPrevious_length.
  - now apply mergeRest_filled, pushPrevious_filled.
Qed.

Lemma loop_unbounded_prefix (before : list ColumnMetadata.t) :
  Forall (fun c => ColumnMetadata.unbounded c = true) before ->
  forall rest previous,
    rest <> [] ->
    AnchorColumn.loop (before ++ rest) previous []
    = AnchorColumn.loop rest (previous + length before) [].
Proof.
  induction 1 as [| column before Hu _ IH]; intros rest previous Hne.
  - simpl. now rewrite Nat.add_0_r.
  - cbn [app]. destruct (before ++ rest) as [| next tail] eqn:Hsplit.
    + apply app_eq_nil in Hsplit. destruct Hsplit. contradiction.
    + rewrite loop_unbounded_more by assumption. rewrite <- Hsplit.
      rewrite IH by assumption. f_equal. simpl. lia.
Qed.

(** With a single bounded column among free-text columns, every row
    returned has one value per column and no hole, however many noise
    fields were merged on either side of the bounded value. *)
Theorem single_bounded_column_rows_complete (metadata : FileMetadata.t)
  (before after : list ColumnMetadata.t) (bounded : ColumnMetadata.t)
  (row : list Js.Elem) :
  FileMetadata.columns metadata = before ++ bounded :: after ->
  Forall (fun c => ColumnMetadata.unbounded c = true) before ->
  Forall (fun c => ColumnMetadata.unbounded c = true) after ->
  ColumnMetadata.unbounded bounded = false ->
  tryParseColumns sep cols metadata = Some row ->
  length row = length (FileMetadata.columns metadata)
  /\ Forall (fun e => e <> None) row.
Proof.
  intros Hcolumns Hbefore Hafter Hb. unfold tryParseColumns.
  destruct (_ <? _); [discriminate |].
  unfold FileMetadata.anchorColumns, AnchorColumn.getAnchorColumns.
  rewrite Hcolumns, loop_unbounded_prefix by (assumption || discriminate).
  rewrite loop_bounded by assumption. cbn [forEachAnchor Nat.add].
  destruct (anchorStep sep cols _ _) as [c1 |] eqn:Hstep1; [| discriminate].
  eapply anchorStep_bounded_complete in Hstep1;
    [| reflexivity | exact Hb | reflexivity | constructor].
  destruct Hstep1 as [Hlen1 Hfilled1].
  cbn [result length AnchorColumn.previousColumns Nat.add] in Hlen1.
  rewrite length_app. cbn [length].
  destruct after as [| next after'].
  - cbn [AnchorColumn.loop forEachAnchor].
    destruct (_ <? _); [discriminate |]. intros [= <-].
    split; [cbn [length] in *; lia | assumption].
  - rewrite loop_all_unbounded by (assumption || discriminate).
    cbn [forEachAnchor].
    destruct (anchorStep sep cols _ c1) as [c2 |] eqn:Hstep2;
      [| discriminate].
    eapply anchorStep_final_complete in Hstep2;
      [| reflexivity | exact Hfilled1].
    destruct Hstep2 as [Hlen2 Hfilled2].
    cbn [AnchorColumn.previousColumns Nat.add] in Hlen2.
    destruct (_ <? _); [discriminate |]. intros [= <-].
    split; [cbn [length] in *; lia | assumption].
Qed.

End CompleteRows.

Lemma single_bounded_column_rows_complete_witness :
  let row := [Some "val-1"; Some "val-2 val-3 val-4"; Some "col-3-val-1";
              Some "val-5"; Some "val-6 val-7 val-8"]%string in
  length row = 5 /\ Forall (fun e => e <> None) row.
Proof.
  intros row.
  apply (single_bounded_column_rows_complete " "
           ["val-1"; "val-2"; "val-3"; "val-4"; "col-3-val-1";
            "val-5"; "val-6"; "val-7"; "val-8"]%string
           Sample.mixed [Sample.free; Sample.free] [Sample.free; Sample.free]
           (Sample.bounded ["col-3-val-1"; "col-3-val-2"; "col-3-val-3"]%string)
           row);
    try reflexivity; repeat constructor.
Defined.

(** ** What the statistics of a column are *)

Section ColumnStatistics.

Import Statistics.

Variable delimiter : string.
Variable maxCardinality : Z.

Lemma addEach_nth_error (columns : list ColumnMetadata.t) :
  forall colData i c,
    length colData = length columns ->
    nth_error columns i = Some c ->
    nth_error (addEach maxCardinality columns colData) i
    = Some (ColumnMetadata.add c (nth i colData EmptyString) maxCardinality).
Proof.
  induction columns as [| c0 columns IH]; intros [| v colData] i c Hlen Hat;
    try discriminate; destruct i as [| i]; try discriminate.
  - simpl in Hat. injection Hat as ->. reflexivity.
  - unfold addEach in *. simpl in *. apply IH; [lia | assumption].
Qed.

Lemma addAll_name (calls : list (string * Z)) :
  forall c,
    ColumnMetadata.name (ColumnMetadata.addAll c calls)
    = ColumnMetadata.name c.
Proof.
  induction calls as [| [v m] calls IH]; intros c; [reflexivity |].
  rewrite addAll_cons, IH. apply add_name.
Qed.

(** The calls of [add] that column [i] receives from the lines. *)
Lemma processLines_column (lines : list string) :
  forall columns columns' i c,
    processLines delimiter maxCardinality (Some columns) lines
    = Some columns' ->
    nth_error columns i = Some c ->
    nth_error columns' i
    = Some (ColumnMetadata.addAll c
              (map (fun line =>
                      (nth i (Js.split line delimiter) EmptyString,
                       maxCardinality))
                 (filter (fun line =>
                            length (Js.split line delimiter)
                            =? length columns) lines))).
Proof.
  induction lines as [| line lines IH]; intros columns columns' i c.
  - intros [= <-] Hat. exact Hat.
  - unfold processLines in *. cbn [fold_left processLine filter].
    destruct (length (Js.split line delimiter) =? length columns) eqn:Hlen.
    + apply Nat.eqb_eq in Hlen. intros Hrun Hat.
      cbn [map]. rewrite addAll_cons.
      rewrite (IH _ _ i _ Hrun (addEach_nth_error _ _ _ _ Hlen Hat)).
      now rewrite addEach_length.
    + apply IH.
Qed.

Lemma initial_columns_new (names : list string) :
  Forall (fun c => c = ColumnMetadata.new (ColumnMetadata.name c))
    (map ColumnMetadata.new names).
Proof.
  induction names; constructor; [reflexivity | assumption].
Qed.

(** Each column of the metadata computed from a file is a new column of
    its name to which the field in its position of every counted line
    (a data line with one field per column) was added in file order. It
    is therefore unbounded exactly when some line was counted and the
    number of distinct values in that position exceeds the ceiling. *)
Theorem create_columns_are_per_column_folds (numberOfColumns : option Z)
  (lines : list string) (i : nat) (c : ColumnMetadata.t) :
  let m := create None delimiter maxCardinality numberOfColumns lines in
  let data :=
    match initialColumns numberOfColumns with
    | Some _ => lines
    | None => tl lines
    end in
  let values :=
    map (fun line => nth i (Js.split line delimiter) EmptyString)
      (filter (fun line =>
                 length (Js.split line delimiter)
                 =? length (FileMetadata.columns m)) data) in
  nth_error (FileMetadata.columns m) i = Some c ->
  c = ColumnMetadata.addAll (ColumnMetadata.new (ColumnMetadata.name c))
        (map (fun v => (v, maxCardinality)) values)
  /\ (ColumnMetadata.unbounded c = true
      <-> values <> []
          /\ (maxCardinality
              < Z.of_nat (StringSet.size (StringSet.ofList values)))%Z).
Proof.
  intros m data values Hat.
  assert (Hfold : exists init c0,
             Forall (fun c => c = ColumnMetadata.new (ColumnMetadata.name c))
               init
             /\ length (FileMetadata.columns m) = length init
             /\ processLines delimiter maxCardinality (Some init) data
                = Some (FileMetadata.columns m)
             /\ nth_error init i = Some c0).
  { subst m data. unfold create in *. cbn [FileMetadata.columns] in *.
    destruct (initialColumns numberOfColumns) as [init |] eqn:Hinit.
    - destruct (processLines_Some delimiter maxCardinality lines init)
        as [columns' [Hrun [Hlen _]]].
      rewrite Hrun in *.
      destruct (nth_error init i) as [c0 |] eqn:Hc0.
      + exists init, c0. repeat split; try assumption.
        unfold initialColumns in Hinit.
        destruct numberOfColumns as [n |]; [| discriminate].
        destruct (n =? 0)%Z; [discriminate |]. injection Hinit as <-.
        rewrite <- (map_map colName ColumnMetadata.new).
        apply initial_columns_new.
      + apply nth_error_None in Hc0.
        assert (i < length columns')
          by (apply nth_error_Some; congruence).
        lia.
    - destruct lines as [| header rest];
        [destruct i; discriminate |].
      cbn [tl].
      change (processLines delimiter maxCardinality None (header :: rest))
        with (processLines delimiter maxCardinality
                (Some (map ColumnMetadata.new (Js.split header delimiter)))
                rest) in *.
      destruct (processLines_Some delimiter maxCardinality rest
                  (map ColumnMetadata.new (Js.split header delimiter)))
        as [columns' [Hrun [Hlen _]]].
      rewrite Hrun in *.
      destruct (nth_error (map ColumnMetadata.new
                             (Js.split header delimiter)) i)
        as [c0 |] eqn:Hc0.
      + exists (map ColumnMetadata.new (Js.split header delimiter)), c0.
        repeat split; try assumption. apply initial_columns_new.
      + apply nth_error_None in Hc0.
        assert (i < length columns')
          by (apply nth_error_Some; congruence).
        lia. }
  destruct Hfold as [init [c0 [Hnew [Hlen [Hrun Hc0]]]]].
  pose proof (processLines_column data init _ i c0 Hrun Hc0) as Hcol.
  rewrite Hat in Hcol. injection Hcol as Hc.
  rewrite <- Hlen in Hc.
  assert (Hc0new : c0 = ColumnMetadata.new (ColumnMetadata.name c0)).
  { rewrite Forall_forall in Hnew. apply Hnew.
    now apply nth_error_In with i. }
  assert (Hname : ColumnMetadata.name c = ColumnMetadata.name c0)
    by (rewrite Hc; apply addAll_name).
  assert (Hshape : c = ColumnMetadata.addAll
                         (ColumnMetadata.new (ColumnMetadata.name c))
                         (map (fun v => (v, maxCardinality)) values)).
  { rewrite Hname, <- Hc0new. subst values. rewrite map_map. exact Hc. }
  split; [exact Hshape |].
  rewrite Hshape at 1.
  apply (addAll_unbounded_iff
           (ColumnMetadata.new (ColumnMetadata.name c)) values maxCardinality).
  reflexivity.
Qed.

End ColumnStatistics.

Lemma create_columns_are_per_column_folds_witness :
  let lines := ["name|side"; "Luke|Light"; "Darth|Vader|Dark";
                "Yoda|Light"; "Maul|Dark"]%string in
  let c := {| ColumnMetadata.maxLength := 5;
              ColumnMetadata.name := "side";
              ColumnMetadata.unbounded := false;
              ColumnMetadata.uniqueValues := ["Light"; "Dark"]%string |} in
  c = ColumnMetadata.addAll (ColumnMetadata.new "side")
        [("Light", 2%Z); ("Light", 2%Z); ("Dark", 2%Z)]%string.
Proof.
  intros lines c.
  exact (proj1 (create_columns_are_per_column_folds "|"%string 2 None lines
                  1 c eq_refl)).
Defined.

Lemma anchors_carry_bounded_columns_witness :
  FileMetadata.columns Sample.mixed <> [].
Proof.
  intros Hnil.
  pose proof (proj2 (proj2 (anchors_carry_bounded_columns
                              (FileMetadata.columns Sample.mixed))) Hnil)
    as Habsurd.
  discriminate Habsurd.
Defined.
